(** * portfolio-three: the object registry and the animation loop of [App]

    A shallow embedding of the class [App] of the scene script (the current
    script with [add], [find], [findAll], orbit controls and the three named
    objects, and the earlier [src/js/app.js] with a single-object [add] and a
    torus-only loop), and the properties of its registry, of its [size] getter
    and of its self-rescheduling [animate] callback.

    JavaScript numbers are IEEE-754 binary64 values: they are Rocq's primitive
    floats.  Objects of the graphics library are known by their identity (a
    [MeshRef]) and live in a heap, so that two entries holding the same mesh
    share its rotation.  The graphics library, the renderer and the browser are
    outside the repository.  Of the library the model keeps what this program
    can see of it: a scene holds each child once ([Object3D.add] takes an
    object away from its parent before it pushes it), the orbit controls
    rewrite the position of the camera at each update, a helper of a light
    reads the light it is given.  What the orbit controls make of a position
    is theirs and the user's: it is a function the page carries. *)

From Stdlib Require Import String List Bool Arith Lia PrimFloat.
Import ListNotations.

Set Warnings "-inexact-float".
Local Open Scope string_scope.
Local Open Scope list_scope.

(** ** Values *)

(** The values a name can take: an entry's [name] is an optional string (a
    missing field reads as [undefined]); the argument of a lookup can also be
    [null]. *)
Inductive jsval : Type :=
| JUndefined
| JNull
| JString (s : string).

(** [a == b] on these values: [undefined] and [null] are loosely equal to each
    other and to nothing else, strings compare by content. *)
Definition loose_eq (a b : jsval) : bool :=
  match a, b with
  | JUndefined, JUndefined | JUndefined, JNull => true
  | JNull, JUndefined | JNull, JNull => true
  | JString s, JString t => String.eqb s t
  | _, _ => false
  end.

(** [a === b], for comparison with [loose_eq]. *)
Definition strict_eq (a b : jsval) : bool :=
  match a, b with
  | JUndefined, JUndefined => true
  | JNull, JNull => true
  | JString s, JString t => String.eqb s t
  | _, _ => false
  end.

(** Identity of an object of the graphics library (a mesh, a light, a helper). *)
Definition MeshRef := nat.

(** The three components of a position, and of a rotation. *)
Record Vector3 : Type := { x : float; y : float; z : float }.

Record Object3D : Type := { position : Vector3; rotation : Vector3 }.

(** [{ name, mesh }]: [name] is optional. *)
Record Renderable : Type := { name : option string; mesh : MeshRef }.

(** [o.name] *)
Definition get_name (o : Renderable) : jsval :=
  match name o with
  | Some s => JString s
  | None => JUndefined
  end.

#[local] Unset Elimination Schemes.
(** An argument of [add]: a renderable, or an array of arguments. *)
Inductive Arg : Type :=
| One (o : Renderable)
| Many (l : list Arg).
#[local] Set Elimination Schemes.

(** Induction on arguments, with the hypothesis for every element of an array. *)
Section ArgInduction.
Variable P : Arg -> Prop.
Hypothesis P_One : forall o, P (One o).
Hypothesis P_Many : forall l, Forall P l -> P (Many l).

Fixpoint Arg_ind (a : Arg) : P a :=
  match a with
  | One o => P_One o
  | Many l =>
      P_Many l
        ((fix all (l : list Arg) : Forall P l :=
            match l with
            | [] => Forall_nil P
            | b :: rest => Forall_cons b (Arg_ind b) (all rest)
            end) l)
  end.
End ArgInduction.

(** Calls that leave the program, in the order they are made. *)
Inductive Call : Type :=
| RendererRender
| GetBoundingClientRect
| ControlsUpdate
| RequestAnimationFrame.

(** What the browser shows the script: the viewport and the scroll offset of
    the page ([document.body.getBoundingClientRect().top]); and what an update
    of the orbit controls makes of the position of the camera, given the calls
    made so far (their own state and the gestures of the user decide it). *)
Record Window : Type := {
  innerWidth : float;
  innerHeight : float;
  devicePixelRatio : float;
  body_top : float;
  orbit : list Call -> Vector3 -> Vector3
}.

Record Camera : Type := { aspect_ratio : float; camera_position : Vector3 }.

Record Renderer : Type := { pixelRatio : float; renderer_width : float; renderer_height : float }.

(** The result of the [size] getter. *)
Record Size : Type := { width : float; height : float; aspect : float }.

(** ** State *)

(** The instance ([objects], [scene], [camera], [renderer], [controls]), the
    heap of library objects, and the browser ([window], the pending animation
    frame requests, the calls made so far).  [scene] is the list of the
    children of the scene. *)
Record State : Type := {
  objects : list Renderable;
  scene : list MeshRef;
  camera : Camera;
  renderer : Renderer;
  controls : bool;
  heap : MeshRef -> Object3D;
  next_ref : MeshRef;
  window : Window;
  raf_pending : nat;
  calls : list Call
}.

Definition set_objects (v : list Renderable) (st : State) : State :=
  {| objects := v; scene := scene st; camera := camera st; renderer := renderer st;
     controls := controls st; heap := heap st; next_ref := next_ref st;
     window := window st; raf_pending := raf_pending st; calls := calls st |}.

Definition set_scene (v : list MeshRef) (st : State) : State :=
  {| objects := objects st; scene := v; camera := camera st; renderer := renderer st;
     controls := controls st; heap := heap st; next_ref := next_ref st;
     window := window st; raf_pending := raf_pending st; calls := calls st |}.

Definition set_camera (v : Camera) (st : State) : State :=
  {| objects := objects st; scene := scene st; camera := v; renderer := renderer st;
     controls := controls st; heap := heap st; next_ref := next_ref st;
     window := window st; raf_pending := raf_pending st; calls := calls st |}.

Definition set_renderer (v : Renderer) (st : State) : State :=
  {| objects := objects st; scene := scene st; camera := camera st; renderer := v;
     controls := controls st; heap := heap st; next_ref := next_ref st;
     window := window st; raf_pending := raf_pending st; calls := calls st |}.

Definition set_controls (v : bool) (st : State) : State :=
  {| objects := objects st; scene := scene st; camera := camera st; renderer := renderer st;
     controls := v; heap := heap st; next_ref := next_ref st;
     window := window st; raf_pending := raf_pending st; calls := calls st |}.

Definition set_heap (v : MeshRef -> Object3D) (st : State) : State :=
  {| objects := objects st; scene := scene st; camera := camera st; renderer := renderer st;
     controls := controls st; heap := v; next_ref := next_ref st;
     window := window st; raf_pending := raf_pending st; calls := calls st |}.

Definition set_next_ref (v : MeshRef) (st : State) : State :=
  {| objects := objects st; scene := scene st; camera := camera st; renderer := renderer st;
     controls := controls st; heap := heap st; next_ref := v;
     window := window st; raf_pending := raf_pending st; calls := calls st |}.

Definition set_window (v : Window) (st : State) : State :=
  {| objects := objects st; scene := scene st; camera := camera st; renderer := renderer st;
     controls := controls st; heap := heap st; next_ref := next_ref st;
     window := v; raf_pending := raf_pending st; calls := calls st |}.

Definition set_raf_pending (v : nat) (st : State) : State :=
  {| objects := objects st; scene := scene st; camera := camera st; renderer := renderer st;
     controls := controls st; heap := heap st; next_ref := next_ref st;
     window := window st; raf_pending := v; calls := calls st |}.

Definition set_calls (v : list Call) (st : State) : State :=
  {| objects := objects st; scene := scene st; camera := camera st; renderer := renderer st;
     controls := controls st; heap := heap st; next_ref := next_ref st;
     window := window st; raf_pending := raf_pending st; calls := v |}.

(** ** Computations: state and exceptions *)

(** A computation ends with a value or with an exception; either way it
    leaves a state behind (what was written before a [throw] stays written). *)
Inductive Result (A : Type) : Type :=
| Ok (a : A) (st : State)
| Throw (e : string) (st : State).

Arguments Ok {A} a st.
Arguments Throw {A} e st.

Definition M (A : Type) : Type := State -> Result A.

Definition ret {A} (a : A) : M A := fun st => Ok a st.

Definition bind {A B} (m : M A) (k : A -> M B) : M B :=
  fun st =>
    match m st with
    | Ok a st' => k a st'
    | Throw e st' => Throw e st'
    end.

Definition throw {A} (e : string) : M A := fun st => Throw e st.

Definition gets {A} (f : State -> A) : M A := fun st => Ok (f st) st.

Definition modify (f : State -> State) : M unit := fun st => Ok tt (f st).

Declare Scope js_scope.
Delimit Scope js_scope with js.
Notation "a <- m ;; k" := (bind m (fun a => k))
  (at level 61, m at next level, right associativity) : js_scope.
Notation "m ;; k" := (bind m (fun _ => k))
  (at level 61, right associativity) : js_scope.
Local Open Scope js_scope.

(** [if (c) { body }] *)
Definition when (c : bool) (body : M unit) : M unit :=
  if c then body else ret tt.

(** [xs.forEach(body)] *)
Fixpoint forEach {A} (xs : list A) (body : A -> M unit) : M unit :=
  match xs with
  | [] => ret tt
  | a :: rest => body a ;; forEach rest body
  end.

(** The state a computation leaves. *)
Definition state_of {A} (r : Result A) : State :=
  match r with
  | Ok _ st => st
  | Throw _ st => st
  end.

Definition threw {A} (r : Result A) : bool :=
  match r with
  | Ok _ _ => false
  | Throw _ _ => true
  end.

(** ** The collaborators, as this program uses them *)

Definition call (c : Call) : M unit :=
  modify (fun st => set_calls (calls st ++ [c]) st).

(** [this.objects.push(o)] *)
Definition objects_push (o : Renderable) : M unit :=
  modify (fun st => set_objects (objects st ++ [o]) st).

(** [children.splice(children.indexOf(m), 1)], when [m] is a child. *)
Fixpoint remove_first (m : MeshRef) (l : list MeshRef) : list MeshRef :=
  match l with
  | [] => []
  | a :: rest => if Nat.eqb a m then rest else a :: remove_first m rest
  end.

(** [this.scene.add(m)]: [Object3D.add] removes [m] from the parent it has,
    here the scene, and pushes it as the last child. *)
Definition scene_add (m : MeshRef) : M unit :=
  modify (fun st => set_scene (remove_first m (scene st) ++ [m]) st).

(** [this.renderer.render(this.scene, this.camera)] *)
Definition renderer_render : M unit := call RendererRender.

(** What [OrbitControls.update] does to the camera it was given: it writes
    its position anew. *)
Definition orbit_update : M unit :=
  modify (fun st =>
    set_camera {| aspect_ratio := aspect_ratio (camera st);
                  camera_position :=
                    orbit (window st) (calls st) (camera_position (camera st)) |} st).

(** [this.controls.update()]: a method call on [this.controls], which is
    [undefined] until [createControls] has run. *)
Definition controls_update : M unit :=
  c <- gets controls ;;
  if c then orbit_update ;; call ControlsUpdate
  else throw "TypeError: this.controls is undefined".

(** [window.requestAnimationFrame(animate)] *)
Definition requestAnimationFrame : M unit :=
  call RequestAnimationFrame ;;
  modify (fun st => set_raf_pending (S (raf_pending st)) st).

(** [document.body.getBoundingClientRect().top] *)
Definition getBoundingClientRect_top : M float :=
  call GetBoundingClientRect ;;
  gets (fun st => body_top (window st)).

Inductive Axis : Type := AxisX | AxisY | AxisZ.

Definition get_axis (a : Axis) (v : Vector3) : float :=
  match a with
  | AxisX => x v
  | AxisY => y v
  | AxisZ => z v
  end.

Definition set_axis (a : Axis) (d : float) (v : Vector3) : Vector3 :=
  match a with
  | AxisX => {| x := d; y := y v; z := z v |}
  | AxisY => {| x := x v; y := d; z := z v |}
  | AxisZ => {| x := x v; y := y v; z := d |}
  end.

Definition upd (h : MeshRef -> Object3D) (m : MeshRef) (o : Object3D) : MeshRef -> Object3D :=
  fun r => if Nat.eqb r m then o else h r.

(** Reading a property of a value that may be [undefined]. *)
Definition deref (v : option MeshRef) : M MeshRef :=
  match v with
  | Some m => ret m
  | None => throw "TypeError: cannot read properties of undefined"
  end.

(** The heap after [m.rotation.a += d]. *)
Definition add_rotation (a : Axis) (d : float) (m : MeshRef) (h : MeshRef -> Object3D)
  : MeshRef -> Object3D :=
  upd h m
    {| position := position (h m);
       rotation := set_axis a (PrimFloat.add (get_axis a (rotation (h m))) d) (rotation (h m)) |}.

(** [v.rotation.a += d] *)
Definition rotation_add (v : option MeshRef) (a : Axis) (d : float) : M unit :=
  m <- deref v ;;
  modify (fun st => set_heap (add_rotation a d m (heap st)) st).

(** [m.position.a = d] *)
Definition position_set (m : MeshRef) (a : Axis) (d : float) : M unit :=
  modify (fun st =>
    let o := heap st m in
    set_heap (upd (heap st) m
      {| position := set_axis a d (position o); rotation := rotation o |}) st).

(** [this.camera.position.a = d] *)
Definition camera_position_set (a : Axis) (d : float) : M unit :=
  modify (fun st =>
    set_camera {| aspect_ratio := aspect_ratio (camera st);
                  camera_position := set_axis a d (camera_position (camera st)) |} st).

Definition origin : Vector3 := {| x := 0%float; y := 0%float; z := 0%float |}.

(** [new THREE.Mesh(..)], [new THREE.PointLight(..)] and the like: a fresh
    object at the origin, not rotated. *)
Definition new_Object3D : M MeshRef :=
  r <- gets next_ref ;;
  modify (fun st => set_heap (upd (heap st) r {| position := origin; rotation := origin |}) st) ;;
  modify (set_next_ref (S r)) ;;
  ret r.

(** A value in a condition: an object is truthy, [undefined] is not. *)
Definition truthy (v : option MeshRef) : bool :=
  match v with
  | Some _ => true
  | None => false
  end.

(** ** The class [App] *)

(** [get size()] *)
Definition size : M Size :=
  w <- gets (fun st => innerWidth (window st)) ;;
  h <- gets (fun st => innerHeight (window st)) ;;
  ret {| width := w; height := h; aspect := PrimFloat.div w h |}.

(** [objects.flat(Infinity)] *)
Fixpoint flat_arg (a : Arg) : list Renderable :=
  match a with
  | One o => [o]
  | Many l => flat_map flat_arg l
  end.

Definition flat (objs : list Arg) : list Renderable := flat_map flat_arg objs.

(** [add(...objects)] *)
Definition add (objs : list Arg) : M unit :=
  forEach (flat objs) (fun o =>
    objects_push o ;;
    scene_add (mesh o)).

(** [find(name)]: [this.objects.find((o) => o.name == name)?.mesh] *)
Definition find (n : jsval) : M (option MeshRef) :=
  gets (fun st => option_map mesh (List.find (fun o => loose_eq (get_name o) n) (objects st))).

(** [findAll(name)]: [this.objects.filter((o) => o.name == name)] *)
Definition findAll (n : jsval) : M (list Renderable) :=
  gets (fun st => List.filter (fun o => loose_eq (get_name o) n) (objects st)).

(** The callback of [#renderScene]. *)
Definition animate : M unit :=
  renderer_render ;;
  torus <- find (JString "torus") ;;
  cube <- find (JString "cube") ;;
  mars <- find (JString "mars") ;;
  when (truthy torus)
    (rotation_add torus AxisX 0.01%float ;;
     rotation_add torus AxisY 0.01%float ;;
     rotation_add torus AxisZ 0.01%float) ;;
  when (truthy torus && truthy cube && truthy mars)
    (top <- getBoundingClientRect_top ;;
     rotation_add mars AxisY 0.01%float ;;
     rotation_add cube AxisY 0.01%float ;;
     rotation_add cube AxisZ 0.01%float ;;
     camera_position_set AxisX (PrimFloat.mul top (-0.0002)%float) ;;
     camera_position_set AxisY (PrimFloat.mul top (-0.0002)%float) ;;
     camera_position_set AxisZ (PrimFloat.mul top (-0.01)%float)) ;;
  controls_update ;;
  requestAnimationFrame.

(** [#createScene()] *)
Definition createScene : M unit :=
  modify (set_scene []) ;;
  s <- size ;;
  modify (set_camera {| aspect_ratio := aspect s; camera_position := origin |}) ;;
  camera_position_set AxisZ 50%float ;;
  dpr <- gets (fun st => devicePixelRatio (window st)) ;;
  modify (fun st => set_renderer {| pixelRatio := dpr;
                                    renderer_width := renderer_width (renderer st);
                                    renderer_height := renderer_height (renderer st) |} st) ;;
  sw <- size ;;
  sh <- size ;;
  modify (fun st => set_renderer {| pixelRatio := pixelRatio (renderer st);
                                    renderer_width := width sw;
                                    renderer_height := height sh |} st).

(** [#createControls()]: [new OrbitControls(this.camera, ..)] updates once
    when it is built. *)
Definition createControls : M unit :=
  orbit_update ;;
  modify (set_controls true).

(** [#renderScene()] *)
Definition renderScene : M unit := animate.

(** [constructor({ canvas })]; the canvas is handed to the renderer and plays
    no part in what follows. *)
Definition constructor : M unit :=
  modify (set_objects []) ;;
  createScene ;;
  createControls ;;
  renderScene.

(** [addEventListeners()]: its body is commented out. *)
Definition addEventListeners : M unit := ret tt.

(** [createTorus(configMaterial)] *)
Definition createTorus : M MeshRef := new_Object3D.

(** [createPointLight()] *)
Definition createPointLight : M MeshRef :=
  l <- new_Object3D ;;
  position_set l AxisX 20%float ;;
  position_set l AxisY 20%float ;;
  position_set l AxisZ 20%float ;;
  ret l.

(** [createCube()] *)
Definition createCube : M MeshRef := new_Object3D.

(** [createStar()]; [p] stands for the three draws of [randFloatSpread(100)]. *)
Definition createStar (p : Vector3) : M MeshRef :=
  m <- new_Object3D ;;
  position_set m AxisX (x p) ;;
  position_set m AxisY (y p) ;;
  position_set m AxisZ (z p) ;;
  ret m.

(** [createMars()] *)
Definition createMars : M MeshRef :=
  m <- new_Object3D ;;
  position_set m AxisZ 30%float ;;
  position_set m AxisX (-10)%float ;;
  ret m.

(** [new THREE.PointLightHelper(light, 2)]: the helper is built, then reads
    its light. *)
Definition new_PointLightHelper (light : option MeshRef) : M MeshRef :=
  helper <- new_Object3D ;;
  _ <- deref light ;;
  ret helper.

(** [addHelpers()]: the arguments of [add] are built first, the last one
    around what [find("point-light")] returned. *)
Definition addHelpers : M unit :=
  axes <- new_Object3D ;;
  grid <- new_Object3D ;;
  light <- find (JString "point-light") ;;
  plh <- new_PointLightHelper light ;;
  add [One {| name := Some "axes-helper"; mesh := axes |};
       One {| name := Some "grid-helper"; mesh := grid |};
       One {| name := Some "point-light-helper"; mesh := plh |}].

(** ** The earlier script, [src/js/app.js]

    Its [size] and [find] read as the ones above; [add] takes one object, the
    loop turns the torus only, and there are no controls. *)
Module Legacy.

(** [add(object)] *)
Definition add (object : Renderable) : M unit :=
  objects_push object ;;
  scene_add (mesh object).

Definition animate : M unit :=
  renderer_render ;;
  torus <- find (JString "torus") ;;
  when (truthy torus)
    (rotation_add torus AxisX 0.01%float ;;
     rotation_add torus AxisY 0.01%float) ;;
  requestAnimationFrame.

Definition createScene : M unit :=
  modify (set_scene []) ;;
  s <- size ;;
  modify (set_camera {| aspect_ratio := aspect s; camera_position := origin |}) ;;
  camera_position_set AxisZ 30%float ;;
  dpr <- gets (fun st => devicePixelRatio (window st)) ;;
  modify (fun st => set_renderer {| pixelRatio := dpr;
                                    renderer_width := renderer_width (renderer st);
                                    renderer_height := renderer_height (renderer st) |} st) ;;
  sw <- size ;;
  sh <- size ;;
  modify (fun st => set_renderer {| pixelRatio := pixelRatio (renderer st);
                                    renderer_width := width sw;
                                    renderer_height := height sh |} st).

Definition renderScene : M unit := animate.

Definition constructor : M unit :=
  modify (set_objects []) ;;
  createScene ;;
  renderScene.

Definition createTorus : M MeshRef := new_Object3D.

End Legacy.

(** ** A page's life: the script's calls and the browser's events *)

(** The browser runs the callbacks requested for the frame; what they request
    is for the next one. *)
Fixpoint repeatM (k : nat) (cb : M unit) : M unit :=
  match k with
  | 0 => ret tt
  | S k' => cb ;; repeatM k' cb
  end.

Definition frame (cb : M unit) : M unit :=
  k <- gets raf_pending ;;
  modify (set_raf_pending 0) ;;
  repeatM k cb.

Definition resize (w h : float) : M unit :=
  modify (fun st => set_window {| innerWidth := w; innerHeight := h;
                                  devicePixelRatio := devicePixelRatio (window st);
                                  body_top := body_top (window st);
                                  orbit := orbit (window st) |} st).

Definition scroll (top : float) : M unit :=
  modify (fun st => set_window {| innerWidth := innerWidth (window st);
                                  innerHeight := innerHeight (window st);
                                  devicePixelRatio := devicePixelRatio (window st);
                                  body_top := top;
                                  orbit := orbit (window st) |} st).

(** The methods of an [App], and what the browser does between two of them. *)
Inductive Op : Type :=
| OpAdd (objs : list Arg)
| OpFind (n : jsval)
| OpFindAll (n : jsval)
| OpSize
| OpAddEventListeners
| OpAddHelpers
| OpCreateTorus
| OpCreatePointLight
| OpCreateCube
| OpCreateStar (p : Vector3)
| OpCreateMars
| OpFrame
| OpResize (w h : float)
| OpScroll (top : float).

Definition run_op (op : Op) : M unit :=
  match op with
  | OpAdd objs => add objs
  | OpFind n => _ <- find n ;; ret tt
  | OpFindAll n => _ <- findAll n ;; ret tt
  | OpSize => _ <- size ;; ret tt
  | OpAddEventListeners => addEventListeners
  | OpAddHelpers => addHelpers
  | OpCreateTorus => _ <- createTorus ;; ret tt
  | OpCreatePointLight => _ <- createPointLight ;; ret tt
  | OpCreateCube => _ <- createCube ;; ret tt
  | OpCreateStar p => _ <- createStar p ;; ret tt
  | OpCreateMars => _ <- createMars ;; ret tt
  | OpFrame => frame animate
  | OpResize w h => resize w h
  | OpScroll top => scroll top
  end.

(** A call made by the page or by the browser is a task of its own: an
    exception ends the call, and the page goes on from the state it left. *)
Definition task (m : M unit) : M unit :=
  fun st => Ok tt (state_of (m st)).

Definition run (ops : list Op) : M unit := forEach ops (fun op => task (run_op op)).

(** The same for the earlier script. *)
Inductive LegacyOp : Type :=
| LOpAdd (object : Renderable)
| LOpFind (n : jsval)
| LOpSize
| LOpCreateTorus
| LOpFrame
| LOpResize (w h : float)
| LOpScroll (top : float).

Definition run_legacy_op (op : LegacyOp) : M unit :=
  match op with
  | LOpAdd object => Legacy.add object
  | LOpFind n => _ <- find n ;; ret tt
  | LOpSize => _ <- size ;; ret tt
  | LOpCreateTorus => _ <- Legacy.createTorus ;; ret tt
  | LOpFrame => frame Legacy.animate
  | LOpResize w h => resize w h
  | LOpScroll top => scroll top
  end.

Definition run_legacy (ops : list LegacyOp) : M unit := forEach ops run_legacy_op.

(** The state in which a constructor starts: nothing created yet, in a
    browser window [w]. *)
Definition blank (w : Window) : State :=
  {| objects := []; scene := [];
     camera := {| aspect_ratio := 0%float; camera_position := origin |};
     renderer := {| pixelRatio := 0%float; renderer_width := 0%float; renderer_height := 0%float |};
     controls := false;
     heap := fun _ => {| position := origin; rotation := origin |};
     next_ref := 0;
     window := w;
     raf_pending := 0;
     calls := [] |}.

(** ** The script that uses the class *)

(** [xs.map(f)] *)
Fixpoint mapM {A B} (f : A -> M B) (xs : list A) : M (list B) :=
  match xs with
  | [] => ret []
  | a :: rest => b <- f a ;; bs <- mapM f rest ;; ret (b :: bs)
  end.

(** The body of the script after [new App(..)]: one [add] of the torus, two
    lights, Mars, the cube and the stars, [stars] being the positions drawn
    for them, then [addEventListeners]. *)
Definition main (stars : list Vector3) : M unit :=
  constructor ;;
  torus <- createTorus ;;
  point_light <- createPointLight ;;
  ambient_light <- new_Object3D ;;
  mars <- createMars ;;
  cube <- createCube ;;
  star_meshes <- mapM createStar stars ;;
  add (One {| name := Some "torus"; mesh := torus |}
       :: One {| name := Some "point-light"; mesh := point_light |}
       :: One {| name := Some "ambient-light"; mesh := ambient_light |}
       :: One {| name := Some "mars"; mesh := mars |}
       :: One {| name := Some "cube"; mesh := cube |}
       :: map (fun m => One {| name := Some "star"; mesh := m |}) star_meshes) ;;
  addEventListeners.

(** ** Some pages *)

(** A window whose controls, left alone, pull the camera a hundredth of the
    way to the origin at each update. *)
Definition desktop : Window :=
  {| innerWidth := 1280%float; innerHeight := 720%float;
     devicePixelRatio := 1%float; body_top := (-300)%float;
     orbit := fun _ p => {| x := PrimFloat.mul (x p) 0.99%float;
                            y := PrimFloat.mul (y p) 0.99%float;
                            z := PrimFloat.mul (z p) 0.99%float |} |}.

(** The page of the script, with its hundred stars. *)
Definition page : State :=
  state_of (main (repeat origin 100) (blank desktop)).


(** A page with a named entry, then two entries without a name. *)
Definition unnamed_entries : State :=
  state_of ((constructor ;;
             add [One {| name := Some "torus"; mesh := 4 |};
                  Many [One {| name := None; mesh := 5 |};
                        One {| name := None; mesh := 6 |}]]) (blank desktop)).

(** ** What the properties speak of *)

(** [r] is the earliest element of [l] that satisfies [P], or nothing when no
    element does. *)
Definition earliest (P : Renderable -> Prop) (l : list Renderable) (r : option Renderable) : Prop :=
  match r with
  | Some o =>
      exists before after,
        l = before ++ o :: after /\ P o /\ forall o', In o' before -> ~ P o'
  | None => forall o, In o l -> ~ P o
  end.

(** [l1] is [l2] with some elements left out, the others in their order. *)
Inductive Subseq {A : Type} : list A -> list A -> Prop :=
| Subseq_nil : Subseq [] []
| Subseq_keep a l1 l2 : Subseq l1 l2 -> Subseq (a :: l1) (a :: l2)
| Subseq_drop a l1 l2 : Subseq l1 l2 -> Subseq l1 (a :: l2).

(** The renderables at the leaves of an argument, counted. *)
Fixpoint leaves_arg (a : Arg) : nat :=
  match a with
  | One _ => 1
  | Many l => list_sum (map leaves_arg l)
  end.

Definition leaves (objs : list Arg) : nat := list_sum (map leaves_arg objs).

(** Registry and scene in lockstep: the meshes of the entries are the meshes
    of the scene, one for one and in the same order. *)
Definition lockstep (st : State) : Prop := map mesh (objects st) = scene st.

(** The operations that call [add]. *)
Definition through_add (op : Op) : bool :=
  match op with
  | OpAdd _ | OpAddHelpers => true
  | _ => false
  end.

(** The state after the constructor and a sequence of [add] calls. *)
Definition built (w : Window) (adds : list (list Arg)) : State :=
  state_of ((constructor ;; forEach adds add) (blank w)).

Definition built_legacy (w : Window) (adds : list Renderable) : State :=
  state_of ((Legacy.constructor ;; forEach adds Legacy.add) (blank w)).

(** The children of a scene after [scene.add] of each of [ms] in turn. *)
Definition attach_all (ms : list MeshRef) (children : list MeshRef) : list MeshRef :=
  fold_left (fun c m => remove_first m c ++ [m]) ms children.

(** The entry [o] goes by the name [n]: it has that string for a name, or,
    for [undefined] and for [null], it has no name. *)
Definition has_name (n : jsval) (o : Renderable) : Prop :=
  match n with
  | JString s => name o = Some s
  | JUndefined | JNull => name o = None
  end.

(** How many entries of [l] go by the name [n]. *)
Fixpoint count_named (n : jsval) (l : list Renderable) : nat :=
  match l with
  | [] => 0
  | o :: rest =>
      match n, name o with
      | JString s, Some t => if string_dec s t then 1 else 0
      | JUndefined, None | JNull, None => 1
      | _, _ => 0
      end + count_named n rest
  end.


(** Registry and scene agree: a mesh is a child of the scene exactly when an
    entry of the registry holds it, and it is a child once. *)
Definition attached (st : State) : Prop :=
  NoDup (scene st)
  /\ forall m, In m (scene st) <-> In m (map mesh (objects st)).

(** A page that holds a torus and nothing else. *)
Definition torus_only : State :=
  state_of ((constructor ;;
             torus <- createTorus ;;
             add [One {| name := Some "torus"; mesh := torus |}]) (blank desktop)).



(** Counting the calls of one kind among the calls made. *)
Definition Call_eqb (a b : Call) : bool :=
  match a, b with
  | RendererRender, RendererRender => true
  | GetBoundingClientRect, GetBoundingClientRect => true
  | ControlsUpdate, ControlsUpdate => true
  | RequestAnimationFrame, RequestAnimationFrame => true
  | _, _ => false
  end.

Fixpoint count_call (c : Call) (l : list Call) : nat :=
  match l with
  | [] => 0
  | d :: rest => (if Call_eqb c d then 1 else 0) + count_call c rest
  end.

(** How many times the loop has rendered, and how many times it has asked
    for a next frame. *)
Definition renders (st : State) : nat := count_call RendererRender (calls st).
Definition requests (st : State) : nat := count_call RequestAnimationFrame (calls st).

(** The frames the browser has shown in a run. *)
Fixpoint count_frames (ops : list Op) : nat :=
  match ops with
  | [] => 0
  | OpFrame :: rest => S (count_frames rest)
  | _ :: rest => count_frames rest
  end.

Fixpoint count_legacy_frames (ops : list LegacyOp) : nat :=
  match ops with
  | [] => 0
  | LOpFrame :: rest => S (count_legacy_frames rest)
  | _ :: rest => count_legacy_frames rest
  end.

(** The loop is alive after [k] turns: one request is pending, and the loop
    has rendered and requested a frame [k] times. *)
Definition looping (k : nat) (st : State) : Prop :=
  raf_pending st = 1 /\ renders st = k /\ requests st = k.

(** [m.rotation.a] in a state. *)
Definition rot (st : State) (m : MeshRef) (a : Axis) : float :=
  get_axis a (rotation (heap st m)).

(** The camera position that [animate] derives from the scroll offset. *)
Definition scrolled (top : float) : Vector3 :=
  {| x := PrimFloat.mul top (-0.0002)%float;
     y := PrimFloat.mul top (-0.0002)%float;
     z := PrimFloat.mul top (-0.01)%float |}.

(** What [createScene] takes from the window: the size and pixel ratio given
    to the renderer, and the aspect ratio given to the camera. *)
Definition viewport_snapshot (st : State) : Renderer * float :=
  (renderer st, aspect_ratio (camera st)).

Definition snapshot_of (w : Window) : Renderer * float :=
  ({| pixelRatio := devicePixelRatio w;
      renderer_width := innerWidth w;
      renderer_height := innerHeight w |},
   PrimFloat.div (innerWidth w) (innerHeight w)).

(** A running page whose registry has a torus, [t], an object that has been
    created. *)
Definition torus_at (t : MeshRef) (st : State) : Prop :=
  controls st = true /\ raf_pending st = 1
  /\ option_map mesh (List.find (fun o => loose_eq (get_name o) (JString "torus")) (objects st))
     = Some t
  /\ t < next_ref st.

(** [f] makes a new object at [p], not rotated, gives its identity back, and
    does nothing else: no object that existed is changed, and nothing is
    registered or given to the scene. *)
Definition creates (f : M MeshRef) (p : Vector3) : Prop :=
  forall st,
    exists st',
      f st = Ok (next_ref st) st'
      /\ st' = set_heap (heap st') (set_next_ref (S (next_ref st)) st)
      /\ heap st' (next_ref st) = {| position := p; rotation := origin |}
      /\ forall r, r <> next_ref st -> heap st' r = heap st r.

(** The entries of [addHelpers], with meshes [r], [r + 1] and [r + 2]. *)
Definition helpers_at (r : MeshRef) : list Renderable :=
  [ {| name := Some "axes-helper"; mesh := r |};
    {| name := Some "grid-helper"; mesh := S r |};
    {| name := Some "point-light-helper"; mesh := S (S r) |} ].

(** The registry of the script with [k] stars. *)
Definition script_entries (k : nat) : list Renderable :=
  [ {| name := Some "torus"; mesh := 0 |};
    {| name := Some "point-light"; mesh := 1 |};
    {| name := Some "ambient-light"; mesh := 2 |};
    {| name := Some "mars"; mesh := 3 |};
    {| name := Some "cube"; mesh := 4 |} ]
  ++ map (fun m => {| name := Some "star"; mesh := m |}) (seq 5 k).

(** The earlier script after [new App(..)]: it adds a torus. *)
Definition legacy_main : M unit :=
  Legacy.constructor ;;
  torus <- Legacy.createTorus ;;
  Legacy.add {| name := Some "torus"; mesh := torus |}.

(** What one frame adds to the rotation of the torus, of the cube and of
    Mars when all three are there, and to that of the torus in the earlier
    script. *)
Definition turn_torus (v : Vector3) : Vector3 :=
  {| x := PrimFloat.add (x v) 0.01%float;
     y := PrimFloat.add (y v) 0.01%float;
     z := PrimFloat.add (z v) 0.01%float |}.

Definition turn_cube (v : Vector3) : Vector3 :=
  {| x := x v;
     y := PrimFloat.add (y v) 0.01%float;
     z := PrimFloat.add (z v) 0.01%float |}.

Definition turn_mars (v : Vector3) : Vector3 :=
  {| x := x v; y := PrimFloat.add (y v) 0.01%float; z := z v |}.

Definition legacy_turn_torus (v : Vector3) : Vector3 :=
  {| x := PrimFloat.add (x v) 0.01%float;
     y := PrimFloat.add (y v) 0.01%float;
     z := z v |}.

(** The name [n] is found on [r], an object that has been created. *)
Definition named_at (n : string) (r : MeshRef) (st : State) : Prop :=
  option_map mesh (List.find (fun o => loose_eq (get_name o) (JString n)) (objects st))
  = Some r
  /\ r < next_ref st.

(** A running page with the torus on [t], the cube on [c] and Mars on [m],
    three different objects. *)
Definition trio_at (t c m : MeshRef) (st : State) : Prop :=
  controls st = true /\ raf_pending st = 1
  /\ named_at "torus" t st /\ named_at "cube" c st /\ named_at "mars" m st
  /\ t <> c /\ t <> m /\ c <> m.

(** A running page of the earlier script with the torus on [t]. *)
Definition legacy_torus_at (t : MeshRef) (st : State) : Prop :=
  raf_pending st = 1 /\ named_at "torus" t st.

(** * Proofs *)

(** ** Lists and arguments *)

Lemma length_flat_arg (a : Arg) : length (flat_arg a) = leaves_arg a.
Proof.
  induction a as [o | l IH] using Arg_ind; simpl; [reflexivity|].
  induction IH as [| b rest Hb _ IHrest]; simpl; [reflexivity|].
  rewrite length_app, Hb, IHrest. reflexivity.
Qed.

Lemma length_flat (objs : list Arg) : length (flat objs) = leaves objs.
Proof.
  unfold flat, leaves.
  induction objs as [| a rest IH]; simpl; [reflexivity|].
  rewrite length_app, length_flat_arg, IH. reflexivity.
Qed.

Lemma flat_app (l1 l2 : list Arg) : flat (l1 ++ l2) = flat l1 ++ flat l2.
Proof. unfold flat. apply flat_map_app. Qed.

Lemma flat_cons_One (o : Renderable) (rest : list Arg) :
  flat (One o :: rest) = o :: flat rest.
Proof. reflexivity. Qed.

Lemma flat_cons_Many (l rest : list Arg) :
  flat (Many l :: rest) = flat l ++ flat rest.
Proof. reflexivity. Qed.

Lemma Subseq_filter {A} (f : A -> bool) (l : list A) : Subseq (List.filter f l) l.
Proof.
  induction l as [| a l IH]; simpl.
  - constructor.
  - destruct (f a); constructor; exact IH.
Qed.

Lemma find_earliest (f : Renderable -> bool) (l : list Renderable) :
  earliest (fun o => f o = true) l (List.find f l).
Proof.
  induction l as [| a l IH]; simpl.
  - intros o [].
  - destruct (f a) eqn:Fa.
    + exists [], l. repeat split; [exact Fa | intros o' []].
    + destruct (List.find f l) as [o|]; simpl in *.
      * destruct IH as (before & after & -> & Ho & Hbefore).
        exists (a :: before), after. repeat split; [exact Ho|].
        intros o' [<- | Hin]; [congruence | apply Hbefore; exact Hin].
      * intros o [<- | Hin]; [congruence | apply IH; exact Hin].
Qed.

Lemma earliest_ext (P Q : Renderable -> Prop) l r :
  (forall o, P o <-> Q o) -> earliest P l r -> earliest Q l r.
Proof.
  intros HPQ. destruct r as [o|]; simpl.
  - intros (before & after & E & Ho & Hb). exists before, after.
    repeat split; [exact E | apply HPQ; exact Ho |].
    intros o' Hin HQ. apply (Hb o' Hin). apply HPQ. exact HQ.
  - intros H o Hin HQ. apply (H o Hin). apply HPQ. exact HQ.
Qed.

Lemma find_head_filter {A} (f : A -> bool) (l : list A) :
  List.find f l = hd_error (List.filter f l).
Proof.
  induction l as [| a l IH]; simpl; [reflexivity|].
  destruct (f a); [reflexivity | exact IH].
Qed.

(** A string name matches exactly the entries that carry this very name. *)
Lemma loose_eq_string (o : Renderable) (s : string) :
  loose_eq (get_name o) (JString s) = true <-> name o = Some s.
Proof.
  unfold get_name. destruct (name o) as [t|]; simpl.
  - rewrite String.eqb_eq. split; congruence.
  - split; discriminate.
Qed.

(** [undefined] and [null] both match exactly the entries without a name. *)
Lemma loose_eq_undefined (o : Renderable) :
  loose_eq (get_name o) JUndefined = true <-> name o = None.
Proof.
  unfold get_name. destruct (name o); simpl; split; congruence.
Qed.

Lemma loose_eq_null (o : Renderable) :
  loose_eq (get_name o) JNull = true <-> name o = None.
Proof.
  unfold get_name. destruct (name o); simpl; split; congruence.
Qed.

Lemma find_null_undefined (l : list Renderable) :
  List.find (fun o => loose_eq (get_name o) JNull) l
  = List.find (fun o => loose_eq (get_name o) JUndefined) l.
Proof.
  induction l as [| a l IH]; simpl; [reflexivity|].
  rewrite IH. unfold get_name. destruct (name a); reflexivity.
Qed.

(** ** The children of the scene *)

Lemma remove_first_absent (m : MeshRef) (l : list MeshRef) :
  ~ In m l -> remove_first m l = l.
Proof.
  induction l as [| a l IH]; simpl; intros H; [reflexivity|].
  destruct (Nat.eqb a m) eqn:E.
  - apply Nat.eqb_eq in E. exfalso. apply H. left. exact E.
  - rewrite IH; [reflexivity|]. intros Hin. apply H. right. exact Hin.
Qed.

Lemma In_remove_first (m x : MeshRef) (l : list MeshRef) :
  NoDup l -> (In x (remove_first m l) <-> In x l /\ x <> m).
Proof.
  induction l as [| a l IH]; simpl; intros ND; [tauto|].
  inversion ND as [| a' l' Ha ND']; subst.
  destruct (Nat.eqb a m) eqn:E.
  - apply Nat.eqb_eq in E. subst a. split.
    + intros Hin. split; [right; exact Hin|]. intros ->. contradiction.
    + intros [[-> | Hin] N]; [contradiction | exact Hin].
  - apply Nat.eqb_neq in E. simpl. rewrite (IH ND'). split.
    + intros [-> | [Hin N]]; [split; [left; reflexivity | exact E] | split; [right|]; assumption].
    + intros [[-> | Hin] N]; [left; reflexivity | right; split; assumption].
Qed.

Lemma NoDup_remove_first (m : MeshRef) (l : list MeshRef) :
  NoDup l -> NoDup (remove_first m l).
Proof.
  induction l as [| a l IH]; simpl; intros ND; [constructor|].
  inversion ND as [| a' l' Ha ND']; subst.
  destruct (Nat.eqb a m); [exact ND'|].
  constructor; [| apply IH; exact ND'].
  intros Hin. apply (In_remove_first m a l ND') in Hin. apply Ha. apply Hin.
Qed.

Lemma NoDup_snoc (m : MeshRef) (l : list MeshRef) :
  NoDup l -> ~ In m l -> NoDup (l ++ [m]).
Proof.
  induction l as [| a l IH]; simpl; intros ND H.
  - constructor; [intros [] | constructor].
  - inversion ND as [| a' l' Ha ND']; subst. constructor.
    + rewrite in_app_iff. intros [Hin | [-> | []]]; [contradiction|].
      apply H. left. reflexivity.
    + apply IH; [exact ND'|]. intros Hin. apply H. right. exact Hin.
Qed.

Lemma attach_all_app (a b c : list MeshRef) :
  attach_all (a ++ b) c = attach_all b (attach_all a c).
Proof. unfold attach_all. apply fold_left_app. Qed.

Lemma attach_all_attached (ms c : list MeshRef) :
  NoDup c ->
  NoDup (attach_all ms c)
  /\ forall x, In x (attach_all ms c) <-> In x ms \/ In x c.
Proof.
  revert c. induction ms as [| m ms IH]; intros c ND; simpl.
  - split; [exact ND | intros x; tauto].
  - assert (ND1 : NoDup (remove_first m c ++ [m])).
    { apply NoDup_snoc; [apply NoDup_remove_first; exact ND|].
      intros Hin. apply (In_remove_first m m c ND) in Hin. destruct Hin as [_ N]. congruence. }
    destruct (IH _ ND1) as [ND2 Hin2]. split; [exact ND2|].
    intros x. rewrite Hin2, in_app_iff, (In_remove_first m x c ND). simpl.
    destruct (Nat.eq_dec x m) as [-> | N]; [tauto|].
    split; [intros [H | [[H _] | [H | []]]]; auto; congruence | intros [[H | H] | H]; auto; congruence].
Qed.

Lemma attach_all_fresh (ms c : list MeshRef) :
  NoDup ms -> (forall m, In m ms -> ~ In m c) -> attach_all ms c = c ++ ms.
Proof.
  revert c. induction ms as [| m ms IH]; intros c ND H; simpl.
  - rewrite app_nil_r. reflexivity.
  - inversion ND as [| m' ms' Hm ND']; subst.
    rewrite (remove_first_absent m c) by (apply H; left; reflexivity).
    rewrite IH; [rewrite <- app_assoc; reflexivity | exact ND' |].
    intros x Hx. rewrite in_app_iff. intros [Hin | [-> | []]].
    + apply (H x); [right; exact Hx | exact Hin].
    + contradiction.
Qed.

(** ** [add] *)

Lemma forEach_push (l : list Renderable) (st : State) :
  forEach l (fun o => objects_push o ;; scene_add (mesh o)) st
  = Ok tt (set_scene (attach_all (map mesh l) (scene st))
             (set_objects (objects st ++ l) st)).
Proof.
  revert st. induction l as [| o l IH]; intros st.
  - destruct st. unfold set_scene, set_objects. simpl. rewrite !app_nil_r. reflexivity.
  - simpl. unfold bind at 1. unfold bind at 1. simpl. rewrite IH.
    destruct st. unfold set_scene, set_objects. simpl.
    rewrite <- !app_assoc. reflexivity.
Qed.

Lemma add_spec (objs : list Arg) (st : State) :
  add objs st
  = Ok tt (set_scene (attach_all (map mesh (flat objs)) (scene st))
             (set_objects (objects st ++ flat objs) st)).
Proof. unfold add. apply forEach_push. Qed.

Lemma legacy_add_spec (o : Renderable) (st : State) :
  Legacy.add o st
  = Ok tt (set_scene (attach_all [mesh o] (scene st)) (set_objects (objects st ++ [o]) st)).
Proof. reflexivity. Qed.

(** ** Running the model *)

(** Unfolds the program and the fields of the state, and nothing of the lists
    and numbers they hold. *)
Ltac js_run :=
  lazy beta iota zeta delta
    [constructor createScene createControls renderScene animate
     Legacy.constructor Legacy.createScene Legacy.renderScene Legacy.animate Legacy.add
     Legacy.createTorus
     addEventListeners addHelpers createTorus createPointLight createCube createStar createMars
     new_Object3D new_PointLightHelper find findAll size when truthy rotation_add deref
     camera_position_set position_set controls_update orbit_update requestAnimationFrame
     getBoundingClientRect_top renderer_render call scene_add objects_push
     frame resize scroll
     bind ret gets modify throw state_of threw
     set_objects set_scene set_camera set_renderer set_controls set_heap
     set_next_ref set_window set_raf_pending set_calls
     objects scene camera renderer controls heap next_ref window raf_pending calls
     aspect_ratio camera_position pixelRatio renderer_width renderer_height
     width height aspect innerWidth innerHeight devicePixelRatio body_top orbit
     blank option_map andb].

Lemma forEach_add (adds : list (list Arg)) (st : State) :
  forEach adds add st
  = Ok tt (set_scene (attach_all (map mesh (concat (map flat adds))) (scene st))
             (set_objects (objects st ++ concat (map flat adds)) st)).
Proof.
  revert st. induction adds as [| objs adds IH]; intros st.
  - destruct st. js_run. simpl. rewrite !app_nil_r. reflexivity.
  - change (forEach (objs :: adds) add st)
      with (bind (add objs) (fun _ => forEach adds add) st).
    unfold bind. rewrite add_spec, IH.
    destruct st. js_run. simpl. rewrite map_app, attach_all_app, !app_assoc. reflexivity.
Qed.

Lemma forEach_legacy_add (adds : list Renderable) (st : State) :
  forEach adds Legacy.add st
  = Ok tt (set_scene (attach_all (map mesh adds) (scene st))
             (set_objects (objects st ++ adds) st)).
Proof. apply forEach_push. Qed.

Lemma constructor_spec (st : State) :
  exists st',
    constructor st = Ok tt st' /\ objects st' = [] /\ scene st' = [] /\
    controls st' = true /\ raf_pending st' = S (raf_pending st) /\
    calls st' = calls st ++ [RendererRender; ControlsUpdate; RequestAnimationFrame].
Proof.
  destruct st. eexists. split; [js_run; reflexivity|]. js_run.
  rewrite <- !app_assoc. repeat split.
Qed.

Lemma legacy_constructor_spec (st : State) :
  exists st',
    Legacy.constructor st = Ok tt st' /\ objects st' = [] /\ scene st' = [] /\
    controls st' = controls st /\ raf_pending st' = S (raf_pending st) /\
    calls st' = calls st ++ [RendererRender; RequestAnimationFrame].
Proof.
  destruct st. eexists. split; [js_run; reflexivity|]. js_run.
  rewrite <- !app_assoc. repeat split.
Qed.

Lemma built_registry (w : Window) (adds : list (list Arg)) :
  objects (built w adds) = concat (map flat adds)
  /\ scene (built w adds) = attach_all (map mesh (concat (map flat adds))) [].
Proof.
  unfold built.
  destruct (constructor_spec (blank w)) as (st0 & E & Ho & Hs & _).
  unfold bind. rewrite E, forEach_add.
  destruct st0. simpl in Ho, Hs. subst. js_run. split; reflexivity.
Qed.

Lemma built_legacy_registry (w : Window) (adds : list Renderable) :
  objects (built_legacy w adds) = adds
  /\ scene (built_legacy w adds) = attach_all (map mesh adds) [].
Proof.
  unfold built_legacy.
  destruct (legacy_constructor_spec (blank w)) as (st0 & E & Ho & Hs & _).
  unfold bind. rewrite E, forEach_legacy_add.
  destruct st0. simpl in Ho, Hs. subst. js_run. split; reflexivity.
Qed.

(** [find] and [findAll] read the registry and write nothing. *)
Lemma find_spec (n : jsval) (st : State) :
  find n st
  = Ok (option_map mesh (List.find (fun o => loose_eq (get_name o) n) (objects st))) st.
Proof. reflexivity. Qed.

Lemma findAll_spec (n : jsval) (st : State) :
  findAll n st = Ok (List.filter (fun o => loose_eq (get_name o) n) (objects st)) st.
Proof. reflexivity. Qed.

Lemma find_earliest_string (s : string) (st : State) :
  exists r,
    find (JString s) st = Ok (option_map mesh r) st
    /\ earliest (fun o => name o = Some s) (objects st) r.
Proof.
  exists (List.find (fun o => loose_eq (get_name o) (JString s)) (objects st)).
  split; [apply find_spec|].
  eapply earliest_ext; [| apply find_earliest].
  intros o. apply loose_eq_string.
Qed.

(** ** The registry *)

(** C1. After any sequence of [add] calls, [find(name)] returns the mesh of
    the earliest-inserted entry whose name is [name], and [undefined] when no
    entry has that name; the entries are those of the calls, flattened, in
    call order.  The same holds of the earlier script, whose [add] takes one
    entry at a time. *)
Theorem find_returns_earliest (w : Window) (s : string) :
  (forall adds : list (list Arg),
      objects (built w adds) = concat (map flat adds)
      /\ exists r,
          find (JString s) (built w adds) = Ok (option_map mesh r) (built w adds)
          /\ earliest (fun o => name o = Some s) (concat (map flat adds)) r)
  /\ (forall adds : list Renderable,
      objects (built_legacy w adds) = adds
      /\ exists r,
          find (JString s) (built_legacy w adds)
          = Ok (option_map mesh r) (built_legacy w adds)
          /\ earliest (fun o => name o = Some s) adds r).
Proof.
  split; intros adds.
  - destruct (built_registry w adds) as [Ho _]. split; [exact Ho|].
    destruct (find_earliest_string s (built w adds)) as (r & E & H).
    exists r. split; [exact E|]. rewrite Ho in H. exact H.
  - destruct (built_legacy_registry w adds) as [Ho _]. split; [exact Ho|].
    destruct (find_earliest_string s (built_legacy w adds)) as (r & E & H).
    exists r. split; [exact E|]. rewrite Ho in H. exact H.
Qed.

Lemma loose_eq_has_name (n : jsval) (o : Renderable) :
  loose_eq (get_name o) n = true <-> has_name n o.
Proof.
  destruct n as [| | s]; simpl has_name;
    [apply loose_eq_undefined | apply loose_eq_null | apply loose_eq_string].
Qed.

Lemma length_filter_named (n : jsval) (l : list Renderable) :
  length (List.filter (fun o => loose_eq (get_name o) n) l) = count_named n l.
Proof.
  induction l as [| o l IH]; simpl; [reflexivity|].
  unfold get_name at 1. destruct n as [| | s], (name o) as [t|]; simpl;
    rewrite ?IH; try reflexivity.
  destruct (string_dec s t) as [-> | N].
  - rewrite String.eqb_refl. simpl. rewrite IH. reflexivity.
  - destruct (String.eqb t s) eqn:E; [| exact IH].
    apply String.eqb_eq in E. congruence.
Qed.

(** C2. After any sequence of [add] calls, [findAll(name)] returns entries
    (name and mesh): the entries of the registry that go by that name, all of
    them and no other, in their insertion order, as many as the registry has
    with that name. *)
Theorem findAll_in_order (w : Window) (adds : list (list Arg)) (n : jsval) :
  exists l : list Renderable,
    findAll n (built w adds) = Ok l (built w adds)
    /\ Subseq l (concat (map flat adds))
    /\ (forall o, In o l <-> In o (concat (map flat adds)) /\ has_name n o)
    /\ length l = count_named n (concat (map flat adds)).
Proof.
  destruct (built_registry w adds) as [Ho _].
  exists (List.filter (fun o => loose_eq (get_name o) n) (concat (map flat adds))).
  rewrite <- Ho. split; [apply findAll_spec|]. split; [apply Subseq_filter|].
  split; [| apply length_filter_named].
  intros o. rewrite filter_In, loose_eq_has_name. reflexivity.
Qed.




(** C9. [find] and [findAll] agree: [find(name)] is [undefined] exactly when
    [findAll(name)] is empty, and otherwise it is the mesh of the first entry
    of [findAll(name)]. *)
Theorem find_findAll_coherent (n : jsval) (st : State) :
  exists (r : option MeshRef) (l : list Renderable),
    find n st = Ok r st
    /\ findAll n st = Ok l st
    /\ (r = None <-> l = [])
    /\ r = option_map mesh (hd_error l).
Proof.
  exists (option_map mesh (List.find (fun o => loose_eq (get_name o) n) (objects st))).
  exists (List.filter (fun o => loose_eq (get_name o) n) (objects st)).
  split; [apply find_spec|]. split; [apply findAll_spec|].
  rewrite find_head_filter.
  destruct (List.filter _ (objects st)) as [| o l]; simpl.
  - split; [tauto | reflexivity].
  - split; [split; discriminate | reflexivity].
Qed.

(** C10. Names are compared with [==]: in a registry that holds an entry
    without a name, [find(undefined)] and [find(null)] both return the mesh of
    the earliest entry without a name. *)
Theorem find_nullish_unnamed (st : State) :
  (exists o, In o (objects st) /\ name o = None) ->
  exists o,
    earliest (fun o => name o = None) (objects st) (Some o)
    /\ find JUndefined st = Ok (Some (mesh o)) st
    /\ find JNull st = Ok (Some (mesh o)) st.
Proof.
  intros (o0 & Hin & Hname).
  pose proof (find_earliest (fun o => loose_eq (get_name o) JUndefined) (objects st)) as HU.
  assert (EN : List.find (fun o => loose_eq (get_name o) JNull) (objects st)
               = List.find (fun o => loose_eq (get_name o) JUndefined) (objects st)).
  { apply find_null_undefined. }
  destruct (List.find (fun o => loose_eq (get_name o) JUndefined) (objects st))
    as [o|] eqn:EU.
  - exists o. split.
    + eapply earliest_ext; [| exact HU]. intros o'. apply loose_eq_undefined.
    + rewrite !find_spec, EN, EU. split; reflexivity.
  - exfalso. apply (HU o0 Hin). apply loose_eq_undefined. exact Hname.
Qed.

(** ** The [size] getter *)

(** C6. [size] reads the window each time it is accessed: it returns the
    window's width and height of that moment and, as [aspect], the first
    divided by the second, whatever the two are; an access after the window
    has changed returns the new values. *)
Theorem size_reads_window (st : State) :
  (exists s,
      size st = Ok s st
      /\ width s = innerWidth (window st)
      /\ height s = innerHeight (window st)
      /\ aspect s = PrimFloat.div (width s) (height s))
  /\ (forall w h : float,
      (s1 <- size ;; resize w h ;; s2 <- size ;; ret (s1, s2)) st
      = Ok ({| width := innerWidth (window st); height := innerHeight (window st);
               aspect := PrimFloat.div (innerWidth (window st)) (innerHeight (window st)) |},
            {| width := w; height := h; aspect := PrimFloat.div w h |})
           (state_of (resize w h st))).
Proof.
  split.
  - eexists. split; [reflexivity|]. repeat split.
  - intros w h. destruct st. reflexivity.
Qed.

(** ** What each operation does to the registry and to the scene *)

Ltac js_cases :=
  js_run;
  repeat (match goal with
          | |- context [match List.find ?f ?l with _ => _ end] => destruct (List.find f l)
          | |- context [if ?c then _ else _] => destruct c
          end; js_run).

Lemma animate_registry (st : State) :
  objects (state_of (animate st)) = objects st
  /\ scene (state_of (animate st)) = scene st
  /\ controls (state_of (animate st)) = controls st.
Proof. destruct st. js_cases; repeat split. Qed.

Lemma legacy_animate_registry (st : State) :
  objects (state_of (Legacy.animate st)) = objects st
  /\ scene (state_of (Legacy.animate st)) = scene st.
Proof. destruct st. js_cases; repeat split. Qed.

Lemma state_of_bind {A B} (m : M A) (k : A -> M B) (st : State) :
  state_of (bind m k st) = state_of (m st)
  \/ exists a, m st = Ok a (state_of (m st)) /\ state_of (bind m k st) = state_of (k a (state_of (m st))).
Proof.
  unfold bind. destruct (m st) as [a st' | e st']; simpl.
  - right. exists a. split; reflexivity.
  - left. reflexivity.
Qed.

Lemma repeatM_registry (cb : M unit) (k : nat) :
  (forall st, objects (state_of (cb st)) = objects st /\ scene (state_of (cb st)) = scene st) ->
  forall st,
    objects (state_of (repeatM k cb st)) = objects st
    /\ scene (state_of (repeatM k cb st)) = scene st.
Proof.
  intros Hcb. induction k as [| k IH]; intros st; [split; reflexivity|].
  change (repeatM (S k) cb) with (bind cb (fun _ => repeatM k cb)).
  destruct (Hcb st) as [Ho Hs].
  destruct (state_of_bind cb (fun _ => repeatM k cb) st) as [-> | (a & _ & ->)].
  - split; assumption.
  - destruct (IH (state_of (cb st))) as [Ho' Hs']. split; congruence.
Qed.

Lemma frame_registry (cb : M unit) :
  (forall st, objects (state_of (cb st)) = objects st /\ scene (state_of (cb st)) = scene st) ->
  forall st,
    objects (state_of (frame cb st)) = objects st
    /\ scene (state_of (frame cb st)) = scene st.
Proof.
  intros Hcb st.
  change (frame cb st) with (repeatM (raf_pending st) cb (set_raf_pending 0 st)).
  destruct (repeatM_registry cb (raf_pending st) Hcb (set_raf_pending 0 st)) as [Ho Hs].
  rewrite Ho, Hs. destruct st. split; reflexivity.
Qed.

(** Every operation appends some entries (none, unless it calls [add]) and
    gives their meshes, and nothing else, to the scene. *)
Lemma run_op_registry (op : Op) (st : State) :
  exists suffix,
    objects (state_of (run_op op st)) = objects st ++ suffix
    /\ scene (state_of (run_op op st)) = attach_all (map mesh suffix) (scene st)
    /\ (through_add op = false -> suffix = []).
Proof.
  destruct op; simpl run_op;
    try solve [exists []; rewrite !app_nil_r; destruct st; repeat split].
  - exists (flat objs). rewrite add_spec. destruct st. repeat split. discriminate.
  - destruct st. js_run.
    destruct (List.find _ objects0); js_run.
    + rewrite add_spec. js_run. eexists. split; [reflexivity|].
      split; [reflexivity | discriminate].
    + exists []. rewrite app_nil_r. split; [reflexivity|].
      split; [reflexivity | discriminate].
  - exists []. rewrite !app_nil_r. split; [| split; [| reflexivity]];
      apply (frame_registry animate);
      intros st'; destruct (animate_registry st') as (Ho & Hs & _); split; assumption.
Qed.

Lemma run_legacy_op_registry (op : LegacyOp) (st : State) :
  exists suffix,
    objects (state_of (run_legacy_op op st)) = objects st ++ suffix
    /\ scene (state_of (run_legacy_op op st)) = attach_all (map mesh suffix) (scene st)
    /\ (match op with LOpAdd _ => False | _ => True end -> suffix = []).
Proof.
  destruct op; simpl run_legacy_op;
    try solve [exists []; rewrite !app_nil_r; destruct st; repeat split].
  - exists [object]. destruct st. repeat split. intros [].
  - exists []. rewrite !app_nil_r. split; [| split; [| reflexivity]];
      apply (frame_registry Legacy.animate); apply legacy_animate_registry.
Qed.

Lemma run_cons (op : Op) (ops : list Op) (st : State) :
  run (op :: ops) st = run ops (state_of (run_op op st)).
Proof. reflexivity. Qed.

Lemma run_registry (ops : list Op) (st : State) :
  exists suffix,
    objects (state_of (run ops st)) = objects st ++ suffix
    /\ scene (state_of (run ops st)) = attach_all (map mesh suffix) (scene st).
Proof.
  revert st. induction ops as [| op ops IH]; intros st.
  - exists []. rewrite !app_nil_r. split; reflexivity.
  - rewrite run_cons.
    destruct (run_op_registry op st) as (s1 & Ho & Hs & _).
    destruct (IH (state_of (run_op op st))) as (s2 & Ho' & Hs').
    exists (s1 ++ s2). rewrite Ho', Hs', Ho, Hs, map_app, attach_all_app, !app_assoc.
    split; reflexivity.
Qed.

Lemma run_legacy_registry (ops : list LegacyOp) (st : State) :
  exists suffix,
    objects (state_of (run_legacy ops st)) = objects st ++ suffix
    /\ scene (state_of (run_legacy ops st)) = attach_all (map mesh suffix) (scene st).
Proof.
  revert st. induction ops as [| op ops IH]; intros st.
  - exists []. rewrite !app_nil_r. split; reflexivity.
  - change (run_legacy (op :: ops)) with (bind (run_legacy_op op) (fun _ => run_legacy ops)).
    destruct (run_legacy_op_registry op st) as (s1 & Ho & Hs & _).
    destruct (state_of_bind (run_legacy_op op) (fun _ => run_legacy ops) st)
      as [-> | (a & _ & ->)].
    + exists s1. split; assumption.
    + destruct (IH (state_of (run_legacy_op op st))) as (s2 & Ho' & Hs').
      exists (s1 ++ s2). rewrite Ho', Hs', Ho, Hs, map_app, attach_all_app, !app_assoc.
      split; reflexivity.
Qed.

Lemma attached_grows (st st' : State) (sfx : list Renderable) :
  attached st ->
  objects st' = objects st ++ sfx ->
  scene st' = attach_all (map mesh sfx) (scene st) ->
  attached st'.
Proof.
  intros [ND Hin] Ho Hs. unfold attached. rewrite Ho, Hs.
  destruct (attach_all_attached (map mesh sfx) (scene st) ND) as [ND' Hin'].
  split; [exact ND'|]. intros m. rewrite Hin', map_app, in_app_iff, Hin. tauto.
Qed.

Lemma attached_empty (st : State) :
  objects st = [] -> scene st = [] -> attached st.
Proof.
  intros Ho Hs. unfold attached. rewrite Ho, Hs. split; [constructor | intros m; tauto].
Qed.

Lemma NoDup_count_one (m : MeshRef) (l : list MeshRef) :
  NoDup l -> In m l -> count_occ Nat.eq_dec l m = 1.
Proof.
  intros ND Hin. exact (proj1 (NoDup_count_occ' Nat.eq_dec l) ND m Hin).
Qed.

(** C4. Registry and scene are kept together by [add]: the constructor starts
    with both empty; every operation keeps it that a mesh is a child of the
    scene of the instance exactly when an entry of the registry holds it, and
    is a child once; an operation that does not call [add] leaves the scene
    and the registry as they are; so after any run of the page the mesh of
    every entry is in the scene, once, and the scene holds nothing else. *)
Theorem registry_scene_lockstep :
  (forall st, attached (state_of (constructor st)))
  /\ (forall op st, attached st -> attached (state_of (run_op op st)))
  /\ (forall op st, through_add op = false ->
        scene (state_of (run_op op st)) = scene st
        /\ objects (state_of (run_op op st)) = objects st)
  /\ (forall w ops, attached (state_of ((constructor ;; run ops) (blank w))))
  /\ (forall st o, attached st -> In o (objects st) ->
        count_occ Nat.eq_dec (scene st) (mesh o) = 1).
Proof.
  split; [| split; [| split; [| split]]].
  - intros st. destruct (constructor_spec st) as (st' & -> & Ho & Hs & _).
    apply attached_empty; assumption.
  - intros op st L. destruct (run_op_registry op st) as (sfx & Ho & Hs & _).
    exact (attached_grows _ _ _ L Ho Hs).
  - intros op st H. destruct (run_op_registry op st) as (sfx & -> & -> & Hnil).
    rewrite (Hnil H). simpl. rewrite !app_nil_r. split; reflexivity.
  - intros w ops. destruct (constructor_spec (blank w)) as (st0 & E & Ho & Hs & _).
    unfold bind. rewrite E.
    destruct (run_registry ops st0) as (sfx & Ho' & Hs').
    exact (attached_grows _ _ _ (attached_empty _ Ho Hs) Ho' Hs').
  - intros st o [ND Hin] Ho. apply NoDup_count_one; [exact ND|].
    apply Hin. apply in_map. exact Ho.
Qed.

(** C7. The registry only grows: [find] and [findAll] return without writing
    anything, [add] keeps the entries it finds, in their order, and puts the
    new ones after them, and no operation, nor any run of them, or of those
    of the earlier script, does anything to the registry but append. *)
Theorem registry_append_only :
  (forall n st, exists r, find n st = Ok r st)
  /\ (forall n st, exists l, findAll n st = Ok l st)
  /\ (forall objs st, objects (state_of (add objs st)) = objects st ++ flat objs)
  /\ (forall op st, exists suffix, objects (state_of (run_op op st)) = objects st ++ suffix)
  /\ (forall ops st, exists suffix, objects (state_of (run ops st)) = objects st ++ suffix)
  /\ (forall ops st, exists suffix, objects (state_of (run_legacy ops st)) = objects st ++ suffix).
Proof.
  split; [| split; [| split; [| split; [| split]]]].
  - intros n st. eexists. apply find_spec.
  - intros n st. eexists. apply findAll_spec.
  - intros objs st. rewrite add_spec. destruct st. reflexivity.
  - intros op st. destruct (run_op_registry op st) as (sfx & H & _). exists sfx. exact H.
  - intros ops st. destruct (run_registry ops st) as (sfx & H & _). exists sfx. exact H.
  - intros ops st. destruct (run_legacy_registry ops st) as (sfx & H & _). exists sfx. exact H.
Qed.

(** ** The animation loop *)

Lemma count_call_app (c : Call) (l1 l2 : list Call) :
  count_call c (l1 ++ l2) = count_call c l1 + count_call c l2.
Proof.
  induction l1 as [| d l1 IH]; simpl; [reflexivity|]. rewrite IH. lia.
Qed.

Ltac calls_shape :=
  unfold renders, requests; js_run; rewrite <- ?app_assoc, ?count_call_app; simpl.

(** One invocation, from a state in which the controls exist. *)
Lemma animate_reschedules (st : State) :
  controls st = true ->
  exists st',
    animate st = Ok tt st'
    /\ controls st' = true
    /\ raf_pending st' = S (raf_pending st)
    /\ renders st' = S (renders st)
    /\ requests st' = S (requests st)
    /\ exists pre, calls st' = pre ++ [RequestAnimationFrame].
Proof.
  destruct st. simpl controls. intros ->.
  js_cases;
    (eexists; split; [reflexivity|]; calls_shape;
     split; [reflexivity|]; split; [reflexivity|];
     split; [lia|]; split; [lia|];
     first [ exists (calls0 ++ [RendererRender; ControlsUpdate]);
             rewrite <- app_assoc; reflexivity
           | exists (calls0 ++ [RendererRender; GetBoundingClientRect; ControlsUpdate]);
             rewrite <- app_assoc; reflexivity ]).
Qed.

Lemma legacy_animate_reschedules (st : State) :
  exists st',
    Legacy.animate st = Ok tt st'
    /\ controls st' = controls st
    /\ raf_pending st' = S (raf_pending st)
    /\ renders st' = S (renders st)
    /\ requests st' = S (requests st)
    /\ exists pre, calls st' = pre ++ [RequestAnimationFrame].
Proof.
  destruct st.
  js_cases;
    (eexists; split; [reflexivity|]; calls_shape;
     split; [reflexivity|]; split; [reflexivity|];
     split; [lia|]; split; [lia|];
     exists (calls0 ++ [RendererRender]); rewrite <- app_assoc; reflexivity).
Qed.

Lemma frame_one (cb : M unit) (st : State) :
  raf_pending st = 1 -> frame cb st = (cb ;; ret tt) (set_raf_pending 0 st).
Proof.
  intros H. unfold frame. unfold bind at 1. unfold gets. rewrite H. reflexivity.
Qed.

(** An operation keeps the loop alive, whether it returns or throws; a frame
    gives it one more turn. *)
Lemma run_op_looping (op : Op) (st : State) (k : nat) :
  controls st = true -> looping k st ->
  controls (state_of (run_op op st)) = true
  /\ looping (k + match op with OpFrame => 1 | _ => 0 end) (state_of (run_op op st)).
Proof.
  intros Hc Hl. destruct op; simpl run_op;
    try solve [destruct st; unfold looping, renders, requests in *; simpl in Hc, Hl;
               js_run; rewrite ?Nat.add_0_r; split; assumption].
  - rewrite add_spec.
    destruct st; unfold looping, renders, requests in *; simpl in Hc, Hl. js_run.
    rewrite Nat.add_0_r. split; assumption.
  - destruct st; unfold looping, renders, requests in *; simpl in Hc, Hl. js_run.
    destruct (List.find _ objects0); js_run; rewrite ?add_spec; js_run;
      rewrite Nat.add_0_r; split; assumption.
  - destruct Hl as (Hp & Hr & Hq). rewrite (frame_one _ _ Hp).
    destruct (animate_reschedules (set_raf_pending 0 st)) as (st' & E & Hc' & Hp' & Hr' & Hq' & _).
    { destruct st. exact Hc. }
    unfold bind. rewrite E. simpl state_of. split; [exact Hc'|].
    unfold looping. rewrite Hp', Hr', Hq'.
    destruct st. unfold renders, requests in *. simpl in *. repeat split; lia.
Qed.

Lemma run_legacy_op_looping (op : LegacyOp) (st : State) (k : nat) :
  looping k st ->
  exists st',
    run_legacy_op op st = Ok tt st'
    /\ looping (k + match op with LOpFrame => 1 | _ => 0 end) st'.
Proof.
  intros Hl. destruct op; simpl run_legacy_op;
    try solve [destruct st; unfold looping, renders, requests in *; simpl in *;
               eexists; split; [js_run; reflexivity|]; js_run;
               rewrite ?Nat.add_0_r; assumption].
  destruct Hl as (Hp & Hr & Hq). rewrite (frame_one _ _ Hp).
  destruct (legacy_animate_reschedules (set_raf_pending 0 st)) as (st' & E & _ & Hp' & Hr' & Hq' & _).
  unfold bind. rewrite E. exists st'. split; [reflexivity|].
  unfold looping. rewrite Hp', Hr', Hq'.
  destruct st. unfold renders, requests in *. simpl in *. repeat split; lia.
Qed.

Lemma run_looping (ops : list Op) (st : State) (k : nat) :
  controls st = true -> looping k st ->
  controls (state_of (run ops st)) = true
  /\ looping (k + count_frames ops) (state_of (run ops st)).
Proof.
  revert st k. induction ops as [| op ops IH]; intros st k Hc Hl.
  - rewrite Nat.add_0_r. split; assumption.
  - rewrite run_cons.
    destruct (run_op_looping op st k Hc Hl) as (Hc1 & Hl1).
    destruct (IH _ _ Hc1 Hl1) as (Hc2 & Hl2). split; [exact Hc2|].
    replace (k + count_frames (op :: ops))
      with (k + match op with OpFrame => 1 | _ => 0 end + count_frames ops);
      [exact Hl2 | destruct op; simpl; lia].
Qed.

Lemma run_legacy_looping (ops : list LegacyOp) (st : State) (k : nat) :
  looping k st ->
  exists st',
    run_legacy ops st = Ok tt st' /\ looping (k + count_legacy_frames ops) st'.
Proof.
  revert st k. induction ops as [| op ops IH]; intros st k Hl.
  - exists st. rewrite Nat.add_0_r. split; [reflexivity | assumption].
  - change (run_legacy (op :: ops))
      with (bind (run_legacy_op op) (fun _ => run_legacy ops)).
    destruct (run_legacy_op_looping op st k Hl) as (st1 & E & Hl1).
    destruct (IH st1 _ Hl1) as (st2 & E2 & Hl2).
    exists st2. unfold bind. rewrite E. split; [exact E2|].
    replace (k + count_legacy_frames (op :: ops))
      with (k + match op with LOpFrame => 1 | _ => 0 end + count_legacy_frames ops);
      [exact Hl2 | destruct op; simpl; lia].
Qed.

(** C8. Every invocation of [animate] returns, and its last act is to request
    the next frame: on every path, whatever the registry holds.  The loop
    therefore never stops: after the constructor and any run of the page,
    calls that throw included, one request is pending, and the callback has
    been entered, and has rescheduled itself, once in the constructor and once
    for each frame.  The same holds of the loop of the earlier script. *)
Theorem animate_always_reschedules :
  (forall st, controls st = true ->
     exists st',
       animate st = Ok tt st'
       /\ raf_pending st' = S (raf_pending st)
       /\ requests st' = S (requests st)
       /\ exists pre, calls st' = pre ++ [RequestAnimationFrame])
  /\ (forall st,
     exists st',
       Legacy.animate st = Ok tt st'
       /\ raf_pending st' = S (raf_pending st)
       /\ requests st' = S (requests st)
       /\ exists pre, calls st' = pre ++ [RequestAnimationFrame])
  /\ (forall w ops,
       looping (1 + count_frames ops) (state_of ((constructor ;; run ops) (blank w))))
  /\ (forall w ops,
     exists st',
       (Legacy.constructor ;; run_legacy ops) (blank w) = Ok tt st'
       /\ looping (1 + count_legacy_frames ops) st').
Proof.
  split; [| split; [| split]].
  - intros st Hc.
    destruct (animate_reschedules st Hc) as (st' & E & _ & Hp & _ & Hq & Hlast).
    exists st'. repeat split; assumption.
  - intros st.
    destruct (legacy_animate_reschedules st) as (st' & E & _ & Hp & _ & Hq & Hlast).
    exists st'. repeat split; assumption.
  - intros w ops.
    destruct (constructor_spec (blank w)) as (st0 & E & _ & _ & Hc & Hp & Hcalls).
    unfold bind. rewrite E.
    apply (run_looping ops st0 1 Hc).
    unfold looping, renders, requests. rewrite Hp, Hcalls. repeat split.
  - intros w ops.
    destruct (legacy_constructor_spec (blank w)) as (st0 & E & _ & _ & _ & Hp & Hcalls).
    destruct (run_legacy_looping ops st0 1) as (st' & E' & Hl).
    { unfold looping, renders, requests. rewrite Hp, Hcalls. repeat split. }
    exists st'. unfold bind. rewrite E. split; assumption.
Qed.

(** ** What a frame does to the named objects *)

Lemma rot_add_same (a : Axis) (d : float) (m : MeshRef) (h : MeshRef -> Object3D) :
  get_axis a (rotation (add_rotation a d m h m))
  = PrimFloat.add (get_axis a (rotation (h m))) d.
Proof.
  unfold add_rotation, upd. rewrite Nat.eqb_refl. destruct a; reflexivity.
Qed.

Lemma rot_add_other_axis (a b : Axis) (d : float) (m r : MeshRef) (h : MeshRef -> Object3D) :
  a <> b ->
  get_axis b (rotation (add_rotation a d m h r)) = get_axis b (rotation (h r)).
Proof.
  intros Hab. unfold add_rotation, upd.
  destruct (Nat.eqb r m) eqn:E; [| reflexivity].
  apply Nat.eqb_eq in E. subst r. destruct a, b; try reflexivity; congruence.
Qed.

Lemma add_rotation_other (a : Axis) (d : float) (m r : MeshRef) (h : MeshRef -> Object3D) :
  r <> m -> add_rotation a d m h r = h r.
Proof.
  intros Hr. unfold add_rotation, upd.
  destruct (Nat.eqb r m) eqn:E; [| reflexivity].
  apply Nat.eqb_eq in E. congruence.
Qed.

Ltac rot_solve :=
  repeat first
    [ rewrite rot_add_same
    | rewrite rot_add_other_axis by discriminate
    | rewrite add_rotation_other by congruence ];
  reflexivity.




(** ** Witnesses and scenarios *)

Lemma find_nullish_unnamed_witness :
  exists o,
    earliest (fun o => name o = None) (objects unnamed_entries) (Some o)
    /\ find JUndefined unnamed_entries = Ok (Some (mesh o)) unnamed_entries
    /\ find JNull unnamed_entries = Ok (Some (mesh o)) unnamed_entries.
Proof.
  apply (find_nullish_unnamed unnamed_entries).
  exists {| name := None; mesh := 6 |}. split; [| reflexivity].
  vm_compute. auto.
Defined.

(** A mesh that is in the scene is added again, under another name. *)
Lemma registry_scene_lockstep_witness :
  attached (state_of (run_op (OpAdd [Many [One {| name := Some "again"; mesh := 5 |}]])
                        unnamed_entries)).
Proof.
  apply (proj1 (proj2 registry_scene_lockstep)
           (OpAdd [Many [One {| name := Some "again"; mesh := 5 |}]]) unnamed_entries).
  split.
  - vm_compute. repeat (constructor; [simpl; intuition discriminate|]). constructor.
  - intros m. vm_compute. tauto.
Defined.



Lemma animate_always_reschedules_witness :
  exists st',
    animate page = Ok tt st'
    /\ raf_pending st' = S (raf_pending page)
    /\ requests st' = S (requests page)
    /\ exists pre, calls st' = pre ++ [RequestAnimationFrame].
Proof.
  apply (proj1 animate_always_reschedules page).
  vm_compute. reflexivity.
Defined.

(** [==] against [===]: only the first takes [null] for a missing name. *)
Example loose_against_strict :
  let unnamed := {| name := None; mesh := 0 |} in
  loose_eq (get_name unnamed) JNull = true
  /\ strict_eq (get_name unnamed) JNull = false
  /\ loose_eq (get_name unnamed) (JString "undefined") = false.
Proof. repeat split. Qed.

(** The scenarios of the specification. *)
Example find_torus_and_missing :
  let st := built desktop [[One {| name := Some "torus"; mesh := 10 |};
                            One {| name := Some "cube"; mesh := 11 |}]] in
  find (JString "torus") st = Ok (Some 10) st
  /\ find (JString "missing") st = Ok None st.
Proof. split; reflexivity. Qed.

Example hundred_stars :
  exists l,
    findAll (JString "star") page = Ok l page
    /\ length l = 100
    /\ find (JString "star") page = Ok (option_map mesh (hd_error l)) page
    /\ hd_error l = Some {| name := Some "star"; mesh := 5 |}.
Proof.
  exists (List.filter (fun o => loose_eq (get_name o) (JString "star")) (objects page)).
  vm_compute. repeat split.
Qed.

Example flat_keeps_order :
  let o k := {| name := None; mesh := k |} in
  flat [One (o 1); Many [One (o 2); Many [One (o 3); Many []]; One (o 4)]; One (o 5)]
  = [o 1; o 2; o 3; o 4; o 5].
Proof. reflexivity. Qed.

Example page_after_three_frames :
  let st := state_of (run [OpFrame; OpScroll (-600)%float; OpFrame; OpFrame] page) in
  raf_pending st = 1 /\ renders st = 4 /\ requests st = 4.
Proof. vm_compute. repeat split. Qed.

(** On a page without a point light [addHelpers] throws, and the loop goes
    on. *)
Example helpers_without_light :
  let fresh := state_of (constructor (blank desktop)) in
  threw (addHelpers fresh) = true
  /\ objects (state_of (addHelpers fresh)) = []
  /\ looping 2 (state_of (run [OpAddHelpers; OpFrame] fresh)).
Proof. vm_compute. repeat split. Qed.

(** [size] on a viewport wider than high, higher than wide, and of no height. *)
Example size_of_viewports :
  let at_size w h := size (state_of (resize w h page)) in
  (exists st, at_size 1280%float 720%float
     = Ok {| width := 1280%float; height := 720%float;
             aspect := PrimFloat.div 1280%float 720%float |} st)
  /\ (exists st, at_size 720%float 1280%float
     = Ok {| width := 720%float; height := 1280%float; aspect := 0.5625%float |} st)
  /\ (exists st, at_size 0%float 0%float
     = Ok {| width := 0%float; height := 0%float; aspect := nan |} st).
Proof. repeat split; eexists; vm_compute; reflexivity. Qed.

(** * More of the class *)

(** ** Composing [add] and the lookups *)

Lemma find_app (f : Renderable -> bool) (l1 l2 : list Renderable) :
  List.find f (l1 ++ l2)
  = match List.find f l1 with
    | Some o => Some o
    | None => List.find f l2
    end.
Proof.
  induction l1 as [| a l1 IH]; simpl; [reflexivity|].
  destruct (f a); [reflexivity | exact IH].
Qed.

Lemma flat_map_One (l : list Renderable) : flat (map One l) = l.
Proof.
  unfold flat. induction l as [| o l IH]; simpl; [reflexivity|].
  rewrite IH. reflexivity.
Qed.

Lemma objects_after_add (objs : list Arg) (st : State) :
  objects (state_of (add objs st)) = objects st ++ flat objs.
Proof. rewrite add_spec. destruct st. reflexivity. Qed.

(** X1. Two [add] calls in a row are one [add] of the two batches put
    together. *)
Theorem add_composes (a b : list Arg) (st : State) :
  add (a ++ b) st = (add a ;; add b) st.
Proof.
  unfold bind. rewrite (add_spec a), !add_spec, flat_app, map_app, attach_all_app.
  destruct st. js_run. rewrite !app_assoc. reflexivity.
Qed.

(** X2. Nesting plays no part: [add] of a batch is [add] of its leaves, given
    one by one as arguments, and is what the [add] of the earlier script does
    when called on each leaf in turn. *)
Theorem add_nesting_irrelevant (objs : list Arg) (st : State) :
  add objs st = add (map One (flat objs)) st
  /\ add objs st = forEach (flat objs) Legacy.add st.
Proof.
  split.
  - rewrite !add_spec, flat_map_One. reflexivity.
  - rewrite add_spec. unfold Legacy.add. rewrite forEach_push. reflexivity.
Qed.

(** X3. An [add] without a renderable (no argument, or only empty arrays,
    however nested) changes nothing. *)
Theorem add_nothing (objs : list Arg) (st : State) :
  leaves objs = 0 -> add objs st = Ok tt st.
Proof.
  intros H. rewrite <- length_flat in H. apply length_zero_iff_nil in H.
  unfold add. rewrite H. reflexivity.
Qed.

Lemma add_nothing_witness :
  add [Many []; Many [Many []; Many [Many []]]] page = Ok tt page.
Proof. apply add_nothing. reflexivity. Defined.

(** X4. A lookup that has succeeded gives the same mesh for the rest of the
    page's life: whatever is added later, under the same name or another, the
    first entry keeps the name. *)
Theorem find_stable (n : jsval) (m : MeshRef) (st : State) :
  find n st = Ok (Some m) st ->
  (forall ops, find n (state_of (run ops st)) = Ok (Some m) (state_of (run ops st)))
  /\ (forall ops,
       find n (state_of (run_legacy ops st)) = Ok (Some m) (state_of (run_legacy ops st))).
Proof.
  rewrite find_spec. intros H. injection H as H.
  split; intros ops; rewrite find_spec.
  - destruct (run_registry ops st) as (sfx & -> & _).
    rewrite find_app.
    destruct (List.find _ (objects st)); [rewrite H; reflexivity | discriminate H].
  - destruct (run_legacy_registry ops st) as (sfx & -> & _).
    rewrite find_app.
    destruct (List.find _ (objects st)); [rewrite H; reflexivity | discriminate H].
Qed.

Lemma find_stable_witness :
  let st := state_of (run [OpAddHelpers;
                           OpAdd [One {| name := Some "torus"; mesh := 99 |}];
                           OpFrame] page) in
  find (JString "torus") st = Ok (Some 0) st.
Proof.
  apply (proj1 (find_stable (JString "torus") 0 page ltac:(vm_compute; reflexivity))).
Defined.

(** X5. Looking up after adding: a name the registry already had keeps its
    mesh; a name it did not have gets the mesh of the first leaf of the batch,
    in flattening order, that carries it, and stays absent when none does. *)
Theorem find_after_add (n : jsval) (objs : list Arg) (st : State) :
  exists r0,
    find n st = Ok r0 st
    /\ find n (state_of (add objs st))
       = Ok match r0 with
            | Some m => Some m
            | None => option_map mesh (List.find (fun o => loose_eq (get_name o) n) (flat objs))
            end (state_of (add objs st)).
Proof.
  eexists. split; [apply find_spec|].
  rewrite find_spec, objects_after_add, find_app.
  destruct (List.find _ (objects st)); reflexivity.
Qed.

(** X6. [findAll] after an [add] is [findAll] before it followed by the
    matching leaves of the batch. *)
Theorem findAll_after_add (n : jsval) (objs : list Arg) (st : State) :
  exists l0,
    findAll n st = Ok l0 st
    /\ findAll n (state_of (add objs st))
       = Ok (l0 ++ List.filter (fun o => loose_eq (get_name o) n) (flat objs))
            (state_of (add objs st)).
Proof.
  eexists. split; [apply findAll_spec|].
  rewrite findAll_spec, objects_after_add, filter_app. reflexivity.
Qed.

(** ** The constructor and the viewport *)

(** X7. The constructor empties the registry and the scene and sizes the
    renderer and the camera from the window of that moment.  It puts the
    camera at depth 50, and the orbit controls then update it twice, when
    they are built and in the frame the constructor runs; in the earlier
    script, without controls, the camera stays at depth 30.  That frame sees
    an empty registry, so no object is touched. *)
Theorem constructor_starts_empty (st : State) :
  (exists st',
      constructor st = Ok tt st'
      /\ objects st' = [] /\ scene st' = []
      /\ viewport_snapshot st' = snapshot_of (window st)
      /\ camera_position (camera st')
         = orbit (window st) (calls st ++ [RendererRender])
             (orbit (window st) (calls st) {| x := 0%float; y := 0%float; z := 50%float |})
      /\ (forall r, heap st' r = heap st r))
  /\ (exists st',
      Legacy.constructor st = Ok tt st'
      /\ objects st' = [] /\ scene st' = []
      /\ viewport_snapshot st' = snapshot_of (window st)
      /\ camera_position (camera st') = {| x := 0%float; y := 0%float; z := 30%float |}
      /\ (forall r, heap st' r = heap st r)).
Proof.
  destruct st as [objects0 scene0 camera0 renderer0 controls0 heap0 next0
                  [iw ih dpr top orb] raf0 calls0].
  split; (eexists; split; [js_run; reflexivity|]);
    unfold viewport_snapshot, snapshot_of; js_run; repeat split.
Qed.

Lemma state_of_repeatM {T} (f : State -> T) (cb : M unit) :
  (forall st, f (state_of (cb st)) = f st) ->
  forall k st, f (state_of (repeatM k cb st)) = f st.
Proof.
  intros Hcb. induction k as [| k IH]; intros st; [reflexivity|].
  change (repeatM (S k) cb) with (bind cb (fun _ => repeatM k cb)).
  destruct (state_of_bind cb (fun _ => repeatM k cb) st) as [-> | (a & _ & ->)].
  - apply Hcb.
  - rewrite IH. apply Hcb.
Qed.

Lemma state_of_frame {T} (f : State -> T) (cb : M unit) :
  (forall st, f (state_of (cb st)) = f st) ->
  (forall st, f (set_raf_pending 0 st) = f st) ->
  forall st, f (state_of (frame cb st)) = f st.
Proof.
  intros Hcb Hraf st.
  change (frame cb st) with (repeatM (raf_pending st) cb (set_raf_pending 0 st)).
  rewrite (state_of_repeatM f cb Hcb). apply Hraf.
Qed.

Lemma state_of_forEach {A T} (f : State -> T) (body : A -> M unit) :
  (forall a st, f (state_of (body a st)) = f st) ->
  forall xs st, f (state_of (forEach xs body st)) = f st.
Proof.
  intros Hb. induction xs as [| a xs IH]; intros st; [reflexivity|].
  change (forEach (a :: xs) body) with (bind (body a) (fun _ => forEach xs body)).
  destruct (state_of_bind (body a) (fun _ => forEach xs body) st) as [-> | (u & _ & ->)].
  - apply Hb.
  - rewrite IH. apply Hb.
Qed.

Lemma animate_snapshot (st : State) :
  viewport_snapshot (state_of (animate st)) = viewport_snapshot st.
Proof.
  destruct st as [objects0 scene0 [asp0 pos0] renderer0 controls0 heap0 next0 window0 raf0 calls0].
  unfold viewport_snapshot. js_cases; reflexivity.
Qed.

Lemma run_op_snapshot (op : Op) (st : State) :
  viewport_snapshot (state_of (run_op op st)) = viewport_snapshot st.
Proof.
  destruct op; simpl run_op; try solve [destruct st; reflexivity].
  - rewrite add_spec. destruct st. reflexivity.
  - destruct st. js_run. destruct (List.find _ objects0); js_run;
      rewrite ?add_spec; reflexivity.
  - apply (state_of_frame viewport_snapshot animate animate_snapshot).
    intros st'. destruct st'. reflexivity.
Qed.

(** X8. Nothing follows the window after that: whatever the page does
    afterwards, resizing included, the renderer keeps the size and pixel ratio,
    and the camera the aspect ratio, of the window the constructor saw. *)
Theorem viewport_not_resynced (w : Window) (ops : list Op) :
  viewport_snapshot (state_of ((constructor ;; run ops) (blank w))) = snapshot_of w.
Proof.
  destruct (constructor_spec (blank w)) as (st0 & E & _).
  unfold bind. rewrite E. unfold run.
  rewrite (state_of_forEach viewport_snapshot (fun op => task (run_op op)) run_op_snapshot).
  destruct w. revert E. js_run. intros E. injection E as <-. reflexivity.
Qed.

(** ** What a frame touches *)

Lemma position_add_rotation (a : Axis) (d : float) (m r : MeshRef) (h : MeshRef -> Object3D) :
  position (add_rotation a d m h r) = position (h r).
Proof.
  unfold add_rotation, upd. destruct (Nat.eqb r m) eqn:E; [| reflexivity].
  apply Nat.eqb_eq in E. subst r. reflexivity.
Qed.

(** X9. A frame moves no object and creates none, and it leaves alone every
    object that is not the one found under "torus", "cube" or "mars"; it
    does not touch the window, the renderer, the registry or the scene.  This
    holds on every path of the callback. *)
Theorem animate_footprint (st : State) :
  (forall r, position (heap (state_of (animate st)) r) = position (heap st r))
  /\ (forall r,
        find (JString "torus") st <> Ok (Some r) st ->
        find (JString "cube") st <> Ok (Some r) st ->
        find (JString "mars") st <> Ok (Some r) st ->
        heap (state_of (animate st)) r = heap st r)
  /\ next_ref (state_of (animate st)) = next_ref st
  /\ window (state_of (animate st)) = window st
  /\ renderer (state_of (animate st)) = renderer st
  /\ objects (state_of (animate st)) = objects st
  /\ scene (state_of (animate st)) = scene st.
Proof.
  destruct st as [objects0 scene0 [asp0 pos0] renderer0 controls0 heap0 next0 window0 raf0 calls0].
  js_cases.
  all: split; [intros q; rewrite ?position_add_rotation; reflexivity|].
  all: split; [| repeat split].
  all: intros q Nt Nc Nm; rewrite ?add_rotation_other by congruence; reflexivity.
Qed.

(** X10. The loop of the earlier script: an invocation returns; a torus, when
    present, is turned by 0.01 about x and about y and not about z; no other
    object and not the camera is touched. *)
Theorem legacy_animate_turns_torus (st : State) :
  exists st',
    Legacy.animate st = Ok tt st'
    /\ camera st' = camera st
    /\ forall ft,
        find (JString "torus") st = Ok ft st ->
        (forall t, ft = Some t ->
           rot st' t AxisX = PrimFloat.add (rot st t AxisX) 0.01%float
           /\ rot st' t AxisY = PrimFloat.add (rot st t AxisY) 0.01%float
           /\ rot st' t AxisZ = rot st t AxisZ)
        /\ (forall r, ft <> Some r -> heap st' r = heap st r).
Proof.
  destruct st as [objects0 scene0 [asp0 pos0] renderer0 controls0 heap0 next0 window0 raf0 calls0].
  unfold rot. js_cases.
  all: eexists; (split; [reflexivity|]); js_run; (split; [reflexivity|]).
  all: intros ft Eft; injection Eft as <-; split.
  all: try solve [intros t Et; discriminate Et].
  all: try solve [intros t Et; injection Et as <-; repeat split; rot_solve].
  all: intros q N; rot_solve.
Qed.

(** ** The torus over the life of a page *)

Lemma upd_other (h : MeshRef -> Object3D) (m r : MeshRef) (o : Object3D) :
  r <> m -> upd h m o r = h r.
Proof.
  intros N. unfold upd. destruct (Nat.eqb r m) eqn:E; [| reflexivity].
  apply Nat.eqb_eq in E. contradiction.
Qed.

Lemma animate_torus_x (t : MeshRef) (st : State) :
  controls st = true ->
  option_map mesh (List.find (fun o => loose_eq (get_name o) (JString "torus")) (objects st))
  = Some t ->
  exists st',
    animate st = Ok tt st'
    /\ controls st' = true /\ raf_pending st' = S (raf_pending st)
    /\ objects st' = objects st /\ next_ref st' = next_ref st
    /\ rot st' t AxisX = PrimFloat.add (rot st t AxisX) 0.01%float.
Proof.
  destruct st as [objects0 scene0 [asp0 pos0] renderer0 controls0 heap0 next0 window0 raf0 calls0].
  simpl controls. simpl objects. intros -> Hf. unfold rot. revert Hf.
  js_cases; intros Hf; try discriminate Hf; injection Hf as <-;
    (eexists; split; [reflexivity|]); js_run; repeat split; rot_solve.
Qed.

Lemma run_op_torus (op : Op) (t : MeshRef) (st : State) :
  torus_at t st ->
  torus_at t (state_of (run_op op st))
  /\ rot (state_of (run_op op st)) t AxisX
     = match op with
       | OpFrame => PrimFloat.add (rot st t AxisX) 0.01%float
       | _ => rot st t AxisX
       end.
Proof.
  intros (Hc & Hp & Hf & Hn). unfold torus_at.
  destruct op; simpl run_op.
  all: try solve
    [ destruct st; simpl in Hc, Hp, Hf, Hn; unfold rot; js_run;
      rewrite ?upd_other by lia; repeat split; auto ].
  - rewrite add_spec.
    destruct st; simpl in Hc, Hp, Hf, Hn; unfold rot. js_run.
    rewrite find_app.
    destruct (List.find _ objects0); [| discriminate Hf]. repeat split; auto.
  - destruct st; simpl in Hc, Hp, Hf, Hn; unfold rot. js_run.
    destruct (List.find (fun o => loose_eq (get_name o) (JString "point-light")) objects0);
      js_run; rewrite ?add_spec; js_run;
      rewrite ?find_app, ?upd_other by lia;
      (destruct (List.find _ objects0); [| discriminate Hf]); repeat split; auto.
  - rewrite (frame_one _ _ Hp).
    destruct (animate_torus_x t (set_raf_pending 0 st)) as (st' & E & Hc' & Hp' & Ho' & Hn' & Hr').
    { destruct st. exact Hc. } { destruct st. exact Hf. }
    unfold bind. rewrite E. simpl state_of.
    rewrite Hc', Hp', Ho', Hn', Hr'. destruct st. repeat split; auto.
Qed.

(** X11. Only frames turn the torus, and each frame turns it by one increment
    about x: on a running page whose torus is an object that has been
    created, after any run of operations and browser events, calls that throw
    included, the torus has been turned about x by 0.01 once for each frame of
    the run, added in floating point one after the other. *)
Theorem torus_turns_once_a_frame (t : MeshRef) (ops : list Op) (st : State) :
  controls st = true ->
  raf_pending st = 1 ->
  find (JString "torus") st = Ok (Some t) st ->
  t < next_ref st ->
  rot (state_of (run ops st)) t AxisX
  = Nat.iter (count_frames ops) (fun v => PrimFloat.add v 0.01%float) (rot st t AxisX).
Proof.
  intros Hc Hp Hf Hn. rewrite find_spec in Hf. injection Hf as Hf.
  assert (H : torus_at t st) by (repeat split; assumption). clear Hc Hp Hf Hn.
  revert st H. induction ops as [| op ops IH]; intros st H.
  - reflexivity.
  - rewrite run_cons.
    destruct (run_op_torus op t st H) as (H1 & R1).
    rewrite (IH _ H1), R1. destruct op; try reflexivity.
    simpl count_frames. rewrite Nat.iter_succ_r. reflexivity.
Qed.

(** The run has a call that throws, [addHelpers] before a point light is
    there, between its two frames. *)
Lemma torus_turns_once_a_frame_witness :
  rot (state_of (run [OpFrame; OpScroll (-40)%float; OpAddHelpers; OpFrame] torus_only))
      0 AxisX
  = Nat.iter (count_frames [OpFrame; OpScroll (-40)%float; OpAddHelpers; OpFrame])
      (fun v => PrimFloat.add v 0.01%float) (rot torus_only 0 AxisX).
Proof.
  apply (torus_turns_once_a_frame 0
           [OpFrame; OpScroll (-40)%float; OpAddHelpers; OpFrame] torus_only);
    [ vm_compute; reflexivity | vm_compute; reflexivity | vm_compute; reflexivity
    | apply Nat.ltb_lt; vm_compute; reflexivity ].
Defined.

(** ** The factories and the script *)

Ltac created :=
  intros st; destruct st; eexists; split; [js_run; reflexivity|]; js_run;
  split; [reflexivity|]; split;
  [ unfold upd; rewrite ?Nat.eqb_refl; reflexivity
  | intros q N; rewrite ?upd_other by exact N; reflexivity ].

Lemma createTorus_creates : creates createTorus origin.
Proof. created. Qed.

Lemma createPointLight_creates :
  creates createPointLight {| x := 20%float; y := 20%float; z := 20%float |}.
Proof. created. Qed.

Lemma createCube_creates : creates createCube origin.
Proof. created. Qed.

Lemma createStar_creates (p : Vector3) : creates (createStar p) p.
Proof. destruct p as [px py pz]. created. Qed.

Lemma createMars_creates :
  creates createMars {| x := (-10)%float; y := 0%float; z := 30%float |}.
Proof. created. Qed.

(** X12. Each factory makes one new object and hands it back without
    registering it or giving it to the scene: the torus and the cube at the
    origin, the point light at (20, 20, 20), a star where it was drawn, Mars
    at (-10, 0, 30); none is rotated, no object made before is changed, and
    two calls never give the same object. *)
Theorem factories_create_detached :
  creates createTorus origin
  /\ creates createPointLight {| x := 20%float; y := 20%float; z := 20%float |}
  /\ creates createCube origin
  /\ (forall p, creates (createStar p) p)
  /\ creates createMars {| x := (-10)%float; y := 0%float; z := 30%float |}
  /\ creates Legacy.createTorus origin.
Proof.
  split; [apply createTorus_creates|].
  split; [apply createPointLight_creates|].
  split; [apply createCube_creates|].
  split; [apply createStar_creates|].
  split; [apply createMars_creates | apply createTorus_creates].
Qed.

(** X13. [addHelpers] needs its point light.  When [find("point-light")]
    returns a mesh, it returns and appends its three entries, in order, each
    with an object of its own made for the call, and gives these to the scene
    in the same order; it does not look for helpers that are there, and called
    again it appends three more.  When no point light is registered it throws
    while it builds the helper of the light, before [add]: the registry and
    the scene stay as they were. *)
Theorem addHelpers_appends (st : State) :
  (forall light,
      find (JString "point-light") st = Ok (Some light) st ->
      exists st',
        addHelpers st = Ok tt st'
        /\ objects st' = objects st ++ helpers_at (next_ref st)
        /\ scene st' = attach_all (map mesh (helpers_at (next_ref st))) (scene st)
        /\ next_ref st' = 3 + next_ref st
        /\ exists st'',
            addHelpers st' = Ok tt st''
            /\ objects st''
               = objects st ++ helpers_at (next_ref st) ++ helpers_at (3 + next_ref st))
  /\ (find (JString "point-light") st = Ok None st ->
      exists e st',
        addHelpers st = Throw e st'
        /\ objects st' = objects st /\ scene st' = scene st).
Proof.
  destruct st. js_run. split.
  - intros light E. injection E as E.
    destruct (List.find _ objects0) as [o|] eqn:F; [| discriminate E].
    js_run. rewrite add_spec. eexists. split; [reflexivity|].
    js_run. repeat split. rewrite find_app, F. js_run.
    rewrite add_spec. eexists. split; [reflexivity|].
    js_run. rewrite <- app_assoc. reflexivity.
  - intros E. injection E as E.
    destruct (List.find _ objects0) as [o|]; [discriminate E|].
    js_run. eexists. eexists. repeat split.
Qed.

Lemma addHelpers_appends_witness :
  exists st',
    addHelpers page = Ok tt st'
    /\ objects st' = objects page ++ helpers_at (next_ref page).
Proof.
  destruct (proj1 (addHelpers_appends page) 1 ltac:(vm_compute; reflexivity))
    as (st' & E & Ho & _).
  exists st'. split; [exact E | exact Ho].
Defined.

Lemma mapM_createStar (stars : list Vector3) (st : State) :
  exists h',
    mapM createStar stars st
    = Ok (seq (next_ref st) (length stars))
         (set_heap h' (set_next_ref (length stars + next_ref st) st))
    /\ (forall r, r < next_ref st -> h' r = heap st r)
    /\ (forall i, i < length stars ->
          h' (next_ref st + i) = {| position := nth i stars origin; rotation := origin |}).
Proof.
  revert st. induction stars as [| p stars IH]; intros st.
  - exists (heap st). split; [destruct st; reflexivity|].
    split; [reflexivity | intros i Hi; inversion Hi].
  - change (mapM createStar (p :: stars))
      with (b <- createStar p ;; bs <- mapM createStar stars ;; ret (b :: bs)).
    destruct (createStar_creates p st) as (st1 & E1 & S1 & Hnew & Hold).
    destruct (IH st1) as (h2 & E2 & Hold2 & Hnew2).
    assert (N1 : next_ref st1 = S (next_ref st)) by (rewrite S1; destruct st; reflexivity).
    exists h2. unfold bind at 1. rewrite E1. unfold bind at 1. rewrite E2.
    rewrite N1 in *. split.
    + unfold ret. simpl seq. simpl length.
      replace (length stars + S (next_ref st)) with (S (length stars) + next_ref st) by lia.
      f_equal. rewrite S1. destruct st. reflexivity.
    + split.
      * intros r Hr. rewrite Hold2 by lia. apply Hold. lia.
      * intros [| i] Hi; simpl nth.
        -- rewrite Nat.add_0_r, Hold2 by lia. exact Hnew.
        -- replace (next_ref st + S i) with (S (next_ref st) + i) by lia.
           apply Hnew2. simpl in Hi. lia.
Qed.

(** X14. Stars made one after the other are objects of their own, in the
    order of the draws: the i-th is at the i-th drawn position and not
    rotated, and making them changes no object that was there before, and
    nothing else of the page. *)
Theorem stars_are_placed (stars : list Vector3) (st : State) :
  exists st',
    mapM createStar stars st = Ok (seq (next_ref st) (length stars)) st'
    /\ st' = set_heap (heap st') (set_next_ref (length stars + next_ref st) st)
    /\ (forall r, r < next_ref st -> heap st' r = heap st r)
    /\ (forall i, i < length stars ->
          heap st' (next_ref st + i)
          = {| position := nth i stars origin; rotation := origin |}).
Proof.
  destruct (mapM_createStar stars st) as (h' & E & Hold & Hnew).
  eexists. split; [exact E|]. destruct st. repeat split; assumption.
Qed.

Lemma flat_map_leaf {A} (f : A -> Renderable) (l : list A) :
  flat (map (fun a => One (f a)) l) = map f l.
Proof.
  unfold flat. induction l as [| a l IH]; simpl; [reflexivity|].
  rewrite IH. reflexivity.
Qed.

Lemma findAll_stars (l : list MeshRef) :
  List.filter (fun o => loose_eq (get_name o) (JString "star"))
    (map (fun m => {| name := Some "star"; mesh := m |}) l)
  = map (fun m => {| name := Some "star"; mesh := m |}) l.
Proof.
  induction l as [| m l IH]; simpl; [reflexivity|]. rewrite IH. reflexivity.
Qed.

Lemma script_meshes (k : nat) : map mesh (script_entries k) = seq 0 (5 + k).
Proof.
  unfold script_entries. simpl. rewrite map_map. simpl. rewrite map_id. reflexivity.
Qed.

Lemma main_state (w : Window) (stars : list Vector3) :
  exists st,
    main stars (blank w) = Ok tt st
    /\ objects st = script_entries (length stars)
    /\ scene st = map mesh (script_entries (length stars))
    /\ next_ref st = 5 + length stars
    /\ controls st = true
    /\ raf_pending st = 1
    /\ rotation (heap st 0) = origin
    /\ rotation (heap st 3) = origin
    /\ rotation (heap st 4) = origin
    /\ (forall i, i < length stars ->
          heap st (5 + i) = {| position := nth i stars origin; rotation := origin |}).
Proof.
  destruct w as [iw ih dpr top orb]. unfold main.
  set (star := createStar). js_run.
  repeat match goal with
         | |- context [List.find ?f []] =>
             change (List.find f []) with (@None Renderable)
         end.
  js_run. subst star.
  match goal with
  | |- context [mapM createStar stars ?s] =>
      destruct (mapM_createStar stars s) as (h' & E & Hold & Hnew)
  end.
  rewrite E. js_run. rewrite add_spec. eexists. split; [reflexivity|].
  js_run. rewrite !flat_cons_One, flat_map_leaf.
  change ({| name := Some "torus"; mesh := 0 |}
          :: {| name := Some "point-light"; mesh := 1 |}
          :: {| name := Some "ambient-light"; mesh := 2 |}
          :: {| name := Some "mars"; mesh := 3 |}
          :: {| name := Some "cube"; mesh := 4 |}
          :: map (fun m => {| name := Some "star"; mesh := m |})
               (seq 5 (length stars)))
    with (script_entries (length stars)).
  split; [reflexivity|].
  split.
  { apply (attach_all_fresh (map mesh (script_entries (length stars))) []);
      [rewrite script_meshes; apply seq_NoDup | intros m _ []]. }
  split; [lia|]. split; [reflexivity|]. split; [reflexivity|].
  split; [rewrite Hold by (simpl; lia); reflexivity|].
  split; [rewrite Hold by (simpl; lia); reflexivity|].
  split; [rewrite Hold by (simpl; lia); reflexivity|].
  exact Hnew.
Qed.

Lemma script_finds (k : nat) :
  List.find (fun o => loose_eq (get_name o) (JString "torus")) (script_entries k)
  = Some {| name := Some "torus"; mesh := 0 |}
  /\ List.find (fun o => loose_eq (get_name o) (JString "mars")) (script_entries k)
     = Some {| name := Some "mars"; mesh := 3 |}
  /\ List.find (fun o => loose_eq (get_name o) (JString "cube")) (script_entries k)
     = Some {| name := Some "cube"; mesh := 4 |}.
Proof. repeat split. Qed.

(** X15. The script, whatever the window and however many stars are drawn,
    runs to its end and leaves a running page: the registry holds the torus,
    the two lights, Mars and the cube and then the stars, each with an object
    of its own, in lockstep with the scene; "torus", "mars" and "cube" are
    found, on three different objects; [findAll("star")] has one entry for
    each star, and each star is where it was drawn; one frame request is
    pending. *)
Theorem main_builds_page (w : Window) (stars : list Vector3) :
  exists st,
    main stars (blank w) = Ok tt st
    /\ objects st = script_entries (length stars)
    /\ lockstep st
    /\ find (JString "torus") st = Ok (Some 0) st
    /\ find (JString "mars") st = Ok (Some 3) st
    /\ find (JString "cube") st = Ok (Some 4) st
    /\ (exists l, findAll (JString "star") st = Ok l st /\ length l = length stars)
    /\ (forall i, i < length stars -> position (heap st (5 + i)) = nth i stars origin)
    /\ raf_pending st = 1.
Proof.
  destruct (main_state w stars) as (st & E & Ho & Hs & _ & _ & Hp & _ & _ & _ & Hstars).
  destruct (script_finds (length stars)) as (Ft & Fm & Fc).
  exists st. split; [exact E|]. split; [exact Ho|].
  split; [unfold lockstep; rewrite Ho, Hs; reflexivity|].
  rewrite !find_spec, findAll_spec, Ho, Ft, Fm, Fc.
  repeat (split; [reflexivity|]).
  split.
  - eexists. split; [reflexivity|].
    unfold script_entries. simpl. rewrite findAll_stars, length_map, length_seq. reflexivity.
  - split; [| exact Hp]. intros i Hi. rewrite (Hstars i Hi). reflexivity.
Qed.

(** ** The three named objects over the life of a page *)

Lemma vector_ext (u v : Vector3) :
  (forall a, get_axis a u = get_axis a v) -> u = v.
Proof.
  intros H. destruct u as [ux uy uz], v as [vx vy vz].
  pose proof (H AxisX) as Hx. pose proof (H AxisY) as Hy. pose proof (H AxisZ) as Hz.
  simpl in Hx, Hy, Hz. subst. reflexivity.
Qed.

Ltac turn_solve :=
  apply vector_ext; intros [ | | ]; rot_solve.

Lemma animate_trio (t c m : MeshRef) (st : State) :
  controls st = true ->
  option_map mesh (List.find (fun o => loose_eq (get_name o) (JString "torus")) (objects st))
  = Some t ->
  option_map mesh (List.find (fun o => loose_eq (get_name o) (JString "cube")) (objects st))
  = Some c ->
  option_map mesh (List.find (fun o => loose_eq (get_name o) (JString "mars")) (objects st))
  = Some m ->
  t <> c -> t <> m -> c <> m ->
  exists st',
    animate st = Ok tt st'
    /\ controls st' = true /\ raf_pending st' = S (raf_pending st)
    /\ objects st' = objects st /\ next_ref st' = next_ref st
    /\ rotation (heap st' t) = turn_torus (rotation (heap st t))
    /\ rotation (heap st' c) = turn_cube (rotation (heap st c))
    /\ rotation (heap st' m) = turn_mars (rotation (heap st m))
    /\ (forall r, r <> t -> r <> c -> r <> m -> heap st' r = heap st r)
    /\ camera_position (camera st')
       = orbit (window st) (calls st ++ [RendererRender; GetBoundingClientRect])
           (scrolled (body_top (window st)))
    /\ window st' = window st
    /\ calls st'
       = (calls st ++ [RendererRender; GetBoundingClientRect])
         ++ [ControlsUpdate; RequestAnimationFrame].
Proof.
  destruct st as [objects0 scene0 [asp0 [px py pz]] renderer0 controls0 heap0 next0
                  [iw ih dpr top orb] raf0 calls0].
  simpl controls. simpl objects. intros -> Ht Hc Hm Ntc Ntm Ncm.
  revert Ht Hc Hm. js_cases; intros Ht Hc Hm;
    try discriminate Ht; try discriminate Hc; try discriminate Hm.
  injection Ht as <-. injection Hc as <-. injection Hm as <-.
  eexists. split; [reflexivity|]. js_run.
  repeat (split; [reflexivity|]).
  split; [turn_solve|]. split; [turn_solve|]. split; [turn_solve|].
  split; [intros q N1 N2 N3; rot_solve|].
  rewrite <- !app_assoc. repeat split.
Qed.

Lemma named_at_app (n : string) (r : MeshRef) (l sfx : list Renderable) :
  option_map mesh (List.find (fun o => loose_eq (get_name o) (JString n)) l) = Some r ->
  option_map mesh (List.find (fun o => loose_eq (get_name o) (JString n)) (l ++ sfx)) = Some r.
Proof.
  intros H. rewrite find_app. destruct (List.find _ l); [exact H | discriminate H].
Qed.

(** An operation other than a frame changes no object that exists, whether
    it returns or throws; a frame turns the three and changes no other. *)
Lemma run_op_trio (op : Op) (t c m : MeshRef) (st : State) :
  trio_at t c m st ->
  trio_at t c m (state_of (run_op op st))
  /\ next_ref st <= next_ref (state_of (run_op op st))
  /\ match op with
     | OpFrame =>
         rotation (heap (state_of (run_op op st)) t) = turn_torus (rotation (heap st t))
         /\ rotation (heap (state_of (run_op op st)) c) = turn_cube (rotation (heap st c))
         /\ rotation (heap (state_of (run_op op st)) m) = turn_mars (rotation (heap st m))
         /\ (forall r, r <> t -> r <> c -> r <> m ->
               heap (state_of (run_op op st)) r = heap st r)
     | _ => forall r, r < next_ref st -> heap (state_of (run_op op st)) r = heap st r
     end.
Proof.
  intros (Hc & Hp & (Ft & Lt) & (Fc & Lc) & (Fm & Lm) & Ntc & Ntm & Ncm).
  unfold trio_at, named_at.
  destruct op; simpl run_op.
  all: try solve
    [ destruct st; simpl in Hc, Hp, Ft, Lt, Fc, Lc, Fm, Lm; js_run;
      repeat split; auto; intros q Hq; rewrite ?upd_other by lia; reflexivity ].
  - rewrite add_spec.
    destruct st; simpl in Hc, Hp, Ft, Lt, Fc, Lc, Fm, Lm. js_run.
    repeat split; auto; apply named_at_app; assumption.
  - destruct st; simpl in Hc, Hp, Ft, Lt, Fc, Lc, Fm, Lm. js_run.
    destruct (List.find (fun o => loose_eq (get_name o) (JString "point-light")) objects0);
      js_run; rewrite ?add_spec; js_run;
      (repeat split; auto; try lia; try (apply named_at_app; assumption));
      intros q Hq; rewrite ?upd_other by lia; reflexivity.
  - rewrite (frame_one _ _ Hp).
    destruct (animate_trio t c m (set_raf_pending 0 st))
      as (st' & E & Hc' & Hp' & Ho' & Hn' & Rt & Rc & Rm & Hother & _);
      try solve [destruct st; assumption].
    unfold bind. rewrite E. simpl state_of.
    rewrite Hc', Hp', Ho', Hn', Rt, Rc, Rm. destruct st.
    repeat split; auto.
Qed.

Lemma run_ok (ops : list Op) (st : State) :
  run ops st = Ok tt (state_of (run ops st)).
Proof.
  revert st. induction ops as [| op ops IH]; intros st; [reflexivity|].
  rewrite run_cons. apply IH.
Qed.

Lemma run_trio (ops : list Op) (t c m : MeshRef) (st : State) :
  trio_at t c m st ->
  trio_at t c m (state_of (run ops st))
  /\ next_ref st <= next_ref (state_of (run ops st))
  /\ rotation (heap (state_of (run ops st)) t)
     = Nat.iter (count_frames ops) turn_torus (rotation (heap st t))
  /\ rotation (heap (state_of (run ops st)) c)
     = Nat.iter (count_frames ops) turn_cube (rotation (heap st c))
  /\ rotation (heap (state_of (run ops st)) m)
     = Nat.iter (count_frames ops) turn_mars (rotation (heap st m))
  /\ (forall r, r < next_ref st -> r <> t -> r <> c -> r <> m ->
        heap (state_of (run ops st)) r = heap st r).
Proof.
  revert st. induction ops as [| op ops IH]; intros st H.
  - split; [exact H|]. repeat split; auto.
  - rewrite run_cons.
    destruct (run_op_trio op t c m st H) as (H1 & L1 & R1).
    destruct (IH _ H1) as (H2 & L2 & Rt & Rc & Rm & Hother).
    destruct H as (_ & _ & (_ & Lt) & (_ & Lc) & (_ & Lm) & _).
    split; [exact H2|]. split; [lia|]. rewrite Rt, Rc, Rm.
    destruct op;
      try (simpl count_frames; rewrite !R1 by assumption;
           repeat split; try reflexivity;
           intros q Hq N1 N2 N3; rewrite Hother by (auto; lia); apply R1; exact Hq).
    destruct R1 as (Tt & Tc & Tm & To).
    simpl count_frames. rewrite !Nat.iter_succ_r, Tt, Tc, Tm.
    repeat split. intros q Hq N1 N2 N3. rewrite Hother by (auto; lia). apply To; assumption.
Qed.

(** X16. On the page of the script, whatever the window, the stars and what
    follows: after any run of operations and browser events with [k] frames,
    the torus has been turned [k] times by 0.01 about x, y and z, the cube
    [k] times about y and z, Mars [k] times about y, each from no rotation
    at all, and every star is where it was drawn and has not been turned. *)
Theorem script_rotations (w : Window) (stars : list Vector3) (ops : list Op) :
  exists st',
    (main stars ;; run ops) (blank w) = Ok tt st'
    /\ rotation (heap st' 0) = Nat.iter (count_frames ops) turn_torus origin
    /\ rotation (heap st' 4) = Nat.iter (count_frames ops) turn_cube origin
    /\ rotation (heap st' 3) = Nat.iter (count_frames ops) turn_mars origin
    /\ (forall i, i < length stars ->
          heap st' (5 + i) = {| position := nth i stars origin; rotation := origin |}).
Proof.
  destruct (main_state w stars) as (st & E & Ho & _ & Hn & Hc & Hp & R0 & R3 & R4 & Hstars).
  destruct (script_finds (length stars)) as (Ft & Fm & Fc).
  destruct (run_trio ops 0 4 3 st) as (_ & _ & Rt & Rc & Rm & Hother).
  { unfold trio_at, named_at. rewrite Ho, Ft, Fm, Fc, Hn.
    repeat split; auto; simpl; lia. }
  exists (state_of (run ops st)). unfold bind. rewrite E. split; [apply run_ok|].
  rewrite Rt, Rc, Rm, R0, R3, R4. repeat split.
  intros i Hi. rewrite Hother by lia. apply Hstars. exact Hi.
Qed.

(** ** The earlier script over the life of a page *)

Lemma legacy_animate_torus (t : MeshRef) (st : State) :
  option_map mesh (List.find (fun o => loose_eq (get_name o) (JString "torus")) (objects st))
  = Some t ->
  exists st',
    Legacy.animate st = Ok tt st'
    /\ raf_pending st' = S (raf_pending st)
    /\ objects st' = objects st /\ scene st' = scene st /\ next_ref st' = next_ref st
    /\ rotation (heap st' t) = legacy_turn_torus (rotation (heap st t))
    /\ (forall r, r <> t -> heap st' r = heap st r).
Proof.
  destruct st as [objects0 scene0 camera0 renderer0 controls0 heap0 next0 window0 raf0 calls0].
  simpl objects. intros Ht. revert Ht.
  js_cases; intros Ht; try discriminate Ht. injection Ht as <-.
  eexists. split; [reflexivity|]. js_run.
  repeat (split; [reflexivity|]).
  split; [turn_solve|]. intros q N. rot_solve.
Qed.

Lemma run_legacy_op_torus (op : LegacyOp) (t : MeshRef) (st : State) :
  legacy_torus_at t st ->
  exists st',
    run_legacy_op op st = Ok tt st'
    /\ legacy_torus_at t st'
    /\ next_ref st <= next_ref st'
    /\ match op with
       | LOpFrame =>
           rotation (heap st' t) = legacy_turn_torus (rotation (heap st t))
           /\ (forall r, r <> t -> heap st' r = heap st r)
       | _ => forall r, r < next_ref st -> heap st' r = heap st r
       end.
Proof.
  intros (Hp & Ft & Lt). unfold legacy_torus_at, named_at.
  destruct op; simpl run_legacy_op.
  all: try solve
    [ destruct st; simpl in Hp, Ft, Lt;
      eexists; split; [js_run; reflexivity|]; js_run;
      repeat split; auto; intros q Hq; rewrite ?upd_other by lia; reflexivity ].
  - rewrite legacy_add_spec. eexists. split; [reflexivity|].
    destruct st; simpl in Hp, Ft, Lt. js_run.
    repeat split; auto. apply named_at_app. assumption.
  - rewrite (frame_one _ _ Hp).
    destruct (legacy_animate_torus t (set_raf_pending 0 st))
      as (st' & E & Hp' & Ho' & _ & Hn' & Rt & Hother);
      try solve [destruct st; assumption].
    unfold bind. rewrite E. exists st'. split; [reflexivity|].
    rewrite Hp', Ho', Hn', Rt. destruct st. repeat split; auto.
Qed.

Lemma run_legacy_torus (ops : list LegacyOp) (t : MeshRef) (st : State) :
  legacy_torus_at t st ->
  exists st',
    run_legacy ops st = Ok tt st'
    /\ legacy_torus_at t st'
    /\ next_ref st <= next_ref st'
    /\ rotation (heap st' t)
       = Nat.iter (count_legacy_frames ops) legacy_turn_torus (rotation (heap st t))
    /\ (forall r, r < next_ref st -> r <> t -> heap st' r = heap st r).
Proof.
  revert st. induction ops as [| op ops IH]; intros st H.
  - exists st. split; [reflexivity|]. split; [exact H|]. repeat split; auto.
  - change (run_legacy (op :: ops))
      with (bind (run_legacy_op op) (fun _ => run_legacy ops)).
    destruct (run_legacy_op_torus op t st H) as (st1 & E & H1 & L1 & R1).
    destruct (IH st1 H1) as (st2 & E2 & H2 & L2 & Rt & Hother).
    destruct H as (_ & _ & Lt).
    exists st2. unfold bind. rewrite E. split; [exact E2|]. split; [exact H2|].
    split; [lia|]. rewrite Rt.
    destruct op;
      try (simpl count_legacy_frames; rewrite !R1 by assumption;
           split; [reflexivity|];
           intros q Hq N1; rewrite Hother by (auto; lia); apply R1; exact Hq).
    destruct R1 as (Tt & To).
    simpl count_legacy_frames. rewrite Nat.iter_succ_r, Tt.
    split; [reflexivity|]. intros q Hq N1. rewrite Hother by (auto; lia). apply To; assumption.
Qed.

Lemma legacy_main_state (w : Window) :
  exists st,
    legacy_main (blank w) = Ok tt st
    /\ objects st = [ {| name := Some "torus"; mesh := 0 |} ]
    /\ scene st = [0]
    /\ next_ref st = 1
    /\ raf_pending st = 1
    /\ heap st 0 = {| position := origin; rotation := origin |}.
Proof.
  destruct w as [iw ih dpr top orb]. unfold legacy_main. js_run.
  repeat match goal with
         | |- context [List.find ?f []] =>
             change (List.find f []) with (@None Renderable)
         end.
  js_run. eexists. split; [reflexivity|]. js_run. repeat split.
Qed.

(** X17. The earlier script, whatever the window: it leaves a running page
    with one entry, the torus, in lockstep with the scene; after any run of
    operations and browser events with [k] frames the scene holds the meshes
    of the registry and no other, each once, and the torus has been turned
    [k] times by 0.01 about x and about y, from no rotation at all, never
    about z. *)
Theorem legacy_script_rotations (w : Window) (ops : list LegacyOp) :
  (exists st,
      legacy_main (blank w) = Ok tt st
      /\ objects st = [ {| name := Some "torus"; mesh := 0 |} ]
      /\ lockstep st /\ raf_pending st = 1)
  /\ exists st',
      (legacy_main ;; run_legacy ops) (blank w) = Ok tt st'
      /\ attached st'
      /\ rotation (heap st' 0) = Nat.iter (count_legacy_frames ops) legacy_turn_torus origin
      /\ z (rotation (heap st' 0)) = 0%float.
Proof.
  destruct (legacy_main_state w) as (st & E & Ho & Hs & Hn & Hp & H0).
  split.
  - exists st. repeat split; auto. unfold lockstep. rewrite Ho, Hs. reflexivity.
  - destruct (run_legacy_torus ops 0 st) as (st' & E' & _ & _ & Rt & _).
    { unfold legacy_torus_at, named_at. rewrite Ho, Hn. repeat split; auto. }
    exists st'. unfold bind. rewrite E. split; [exact E'|].
    split.
    + destruct (run_legacy_registry ops st) as (sfx & Ho' & Hs').
      rewrite E' in Ho', Hs'. simpl in Ho', Hs'.
      apply (attached_grows st st' sfx); [| exact Ho' | exact Hs'].
      unfold attached. rewrite Ho, Hs. split; [| intros q; reflexivity].
      constructor; [intros [] | constructor].
    + rewrite Rt, H0. split; [reflexivity|]. simpl rotation. clear Rt.
      induction (count_legacy_frames ops) as [| k IH]; [reflexivity|].
      simpl. exact IH.
Qed.

(** ** The camera and the scroll offset *)

Lemma run_app (a b : list Op) (st : State) :
  run (a ++ b) st = run b (state_of (run a st)).
Proof.
  revert st. induction a as [| op a IH]; intros st; [reflexivity|].
  simpl app. rewrite !run_cons. apply IH.
Qed.

Lemma scroll_then_frame (t c m : MeshRef) (top : float) (st : State) :
  trio_at t c m st ->
  exists pre,
    calls (state_of (run [OpScroll top; OpFrame] st))
    = pre ++ [ControlsUpdate; RequestAnimationFrame]
    /\ camera_position (camera (state_of (run [OpScroll top; OpFrame] st)))
       = orbit (window (state_of (run [OpScroll top; OpFrame] st))) pre (scrolled top).
Proof.
  intros (Hc & Hp & (Ft & _) & (Fc & _) & (Fm & _) & Ntc & Ntm & Ncm).
  rewrite !run_cons. simpl run_op.
  change (state_of (scroll top st))
    with (set_window {| innerWidth := innerWidth (window st);
                        innerHeight := innerHeight (window st);
                        devicePixelRatio := devicePixelRatio (window st);
                        body_top := top;
                        orbit := orbit (window st) |} st).
  rewrite frame_one by (destruct st; exact Hp).
  match goal with
  | |- context [(animate ;; ret tt) ?s] =>
      destruct (animate_trio t c m s)
        as (st' & E & _ & _ & _ & _ & _ & _ & _ & _ & Hcam & Hw & Hcalls);
        try solve [destruct st; assumption]
  end.
  unfold bind. rewrite E. simpl state_of.
  eexists. split; [exact Hcalls|].
  rewrite Hcam, Hw. destruct st. reflexivity.
Qed.

(** X18. The camera follows the page: on the page of the script, whatever
    happened before, when the page has been scrolled to an offset the next
    frame sets the position of the camera to (-0.0002, -0.0002, -0.01) times
    that offset, and the update of the orbit controls that ends the frame
    starts from there: the camera is where that update puts the position set
    from the scroll offset, and the position it had before plays no part. *)
Theorem camera_follows_scroll
  (w : Window) (stars : list Vector3) (ops : list Op) (top : float) :
  exists st' pre,
    (main stars ;; run (ops ++ [OpScroll top; OpFrame])) (blank w) = Ok tt st'
    /\ calls st' = pre ++ [ControlsUpdate; RequestAnimationFrame]
    /\ camera_position (camera st') = orbit (window st') pre (scrolled top).
Proof.
  destruct (main_state w stars) as (st & E & Ho & _ & Hn & Hc & Hp & _).
  destruct (script_finds (length stars)) as (Ft & Fm & Fc).
  destruct (run_trio ops 0 4 3 st) as (H1 & _).
  { unfold trio_at, named_at. rewrite Ho, Ft, Fm, Fc, Hn.
    repeat split; auto; simpl; lia. }
  destruct (scroll_then_frame 0 4 3 top _ H1) as (pre & Hcalls & Hcam).
  exists (state_of (run (ops ++ [OpScroll top; OpFrame]) st)), pre.
  unfold bind. rewrite E. split; [apply run_ok|].
  rewrite run_app. split; assumption.
Qed.

(** ** Names that are strings, and names that are missing *)

Lemma find_none (f : Renderable -> bool) (l : list Renderable) :
  (forall o, In o l -> f o = false) -> List.find f l = None.
Proof.
  intros H. induction l as [| a l IH]; simpl; [reflexivity|].
  rewrite (H a (or_introl eq_refl)). apply IH. intros o Hin. apply H. right. exact Hin.
Qed.

Lemma filter_none (f : Renderable -> bool) (l : list Renderable) :
  (forall o, In o l -> f o = false) -> List.filter f l = [].
Proof.
  intros H. induction l as [| a l IH]; simpl; [reflexivity|].
  rewrite (H a (or_introl eq_refl)). apply IH. intros o Hin. apply H. right. exact Hin.
Qed.

(** X19. When every entry of the registry has a name, [find(undefined)] and
    [find(null)] return [undefined] and [findAll] of either is empty: a
    missing argument finds nothing by accident. *)
Theorem find_nullish_all_named (st : State) :
  (forall o, In o (objects st) -> name o <> None) ->
  find JUndefined st = Ok None st
  /\ find JNull st = Ok None st
  /\ findAll JUndefined st = Ok [] st
  /\ findAll JNull st = Ok [] st.
Proof.
  intros H.
  assert (HU : forall o, In o (objects st) -> loose_eq (get_name o) JUndefined = false).
  { intros o Hin. destruct (loose_eq (get_name o) JUndefined) eqn:E; [| reflexivity].
    apply loose_eq_undefined in E. destruct (H o Hin E). }
  assert (HN : forall o, In o (objects st) -> loose_eq (get_name o) JNull = false).
  { intros o Hin. destruct (loose_eq (get_name o) JNull) eqn:E; [| reflexivity].
    apply loose_eq_null in E. destruct (H o Hin E). }
  rewrite !find_spec, !findAll_spec.
  rewrite (find_none _ _ HU), (find_none _ _ HN), (filter_none _ _ HU), (filter_none _ _ HN).
  repeat split.
Qed.

Lemma find_nullish_all_named_witness :
  find JUndefined page = Ok None page
  /\ find JNull page = Ok None page
  /\ findAll JUndefined page = Ok [] page
  /\ findAll JNull page = Ok [] page.
Proof.
  apply (find_nullish_all_named page).
  apply Forall_forall. vm_compute.
  repeat (constructor; [discriminate|]). constructor.
Defined.
